(** * serverauditor_sshconfig: detail commands and port-forwarding bindings

    A shallow embedding of

      - [serverauditor_sshconfig/core/commands/single.py]
        (class [DetailCommand]), and
      - [serverauditor_sshconfig/handlers/pf_rule.py]
        (classes [PFRuleCommand], [InvalidBinding], [BindingParser]),

    followed by the properties of the specification that concern them.

    Conventions of the embedding.

      - A Python [str] is a [string]: a sequence of characters with code
        points below 256.  The character classes of [re] are given on the
        ASCII range, where Python 2 and Python 3 agree; [str.isdigit] and
        [int] are those of Python 3 (and of [unicode] in Python 2), which
        disagree on the superscript digits.
      - A Python object with attributes set by name ([setattr]) is a finite
        map from attribute names to values; a [dict] is a finite map too.
      - Code that can raise returns a [result]; code that also talks to the
        storage threads a state of an abstract type through [M].
      - Code of the package that the two modules call but do not define (the
        mixins, the base command, the storage, the models) appears as section
        variables. *)

From Stdlib Require Import ZArith Ascii String List Bool Lia.
From stdpp Require Import base option list gmap strings.

Local Open Scope Z_scope.
Local Open Scope stdpp_scope.

(** ** Python values, exceptions and results *)

Module Py.

(** The values the two modules store in attributes and dictionaries:
    [None], a [str], or an object of the related model ([O]). *)
Inductive value (O : Type) : Type :=
| None_ : value O
| Str (s : string) : value O
| Obj (o : O) : value O.
Arguments None_ {O}.
Arguments Str {O} s.
Arguments Obj {O} o.

(** Truth value testing: [None] and the empty string are false. *)
Definition truthy {O} (v : value O) : bool :=
  match v with
  | None_ => false
  | Str s => negb (String.eqb s "")
  | Obj _ => true
  end.

(** An argparse attribute that is [None] or a string. *)
Definition of_arg {O} (a : option string) : value O :=
  match a with
  | Some s => Str s
  | None => None_
  end.

(** The exceptions of [core.exceptions] that the two modules raise, the
    subclass [InvalidBinding] that [pf_rule.py] declares, and the built-in
    ones the interpreter raises on their behalf.  Each carries the
    arguments it was constructed with. *)
Inductive exn : Type :=
| ArgumentRequiredException (msg : string)
| DoesNotExistException (msg : string)
| InvalidArgumentException (msg : string)
| InvalidBinding (msg : string)
| AssertionError
| AttributeError (attr : string)
| KeyError (key : string)
| ValueError (msg : string)
| Exception_ (msg : string).

(** [class InvalidBinding(InvalidArgumentException)]. *)
Definition is_InvalidArgumentException (e : exn) : bool :=
  match e with
  | InvalidArgumentException _ | InvalidBinding _ => true
  | _ => false
  end.

Inductive result (A : Type) : Type :=
| Return (a : A)
| Raise (e : exn).
Arguments Return {A} a.
Arguments Raise {A} e.

(** *** Characters and [str] methods *)

Definition code (c : ascii) : N := N_of_ascii c.

Definition between (lo hi : N) (c : ascii) : bool :=
  (lo <=? code c)%N && (code c <=? hi)%N.

(** [0-9] *)
Definition is_digit (c : ascii) : bool := between 48 57 c.

(** [a-zA-Z] *)
Definition is_alpha (c : ascii) : bool := between 65 90 c || between 97 122 c.

Definition is_alnum (c : ascii) : bool := is_alpha c || is_digit c.

Fixpoint all_chars (p : ascii -> bool) (s : string) : bool :=
  match s with
  | EmptyString => true
  | String c s' => p c && all_chars p s'
  end.

(** The characters below 256 that are digits without being decimal
    digits: superscript two, three and one. *)
Definition is_superscript (c : ascii) : bool :=
  (code c =? 178)%N || (code c =? 179)%N || (code c =? 185)%N.

(** What [str.isdigit] takes for a digit. *)
Definition isdigit_char (c : ascii) : bool := is_digit c || is_superscript c.

(** [str.isdigit]: every character is a digit and there is at least one. *)
Definition isdigit (s : string) : bool :=
  negb (String.eqb s "") && all_chars isdigit_char s.

Definition digit_value (c : ascii) : Z := Z.of_N (code c) - 48.

Fixpoint int_acc (acc : Z) (s : string) : Z :=
  match s with
  | EmptyString => acc
  | String c s' => int_acc (10 * acc + digit_value c) s'
  end.

(** [int(s)] for a string that passed [str.isdigit] (so with no sign, blank
    or underscore in it): its value when every character is a decimal
    digit, and [ValueError] otherwise. *)
Definition int (s : string) : result Z :=
  if negb (String.eqb s "") && all_chars is_digit s
  then Return (int_acc 0 s)
  else Raise (ValueError
                ("invalid literal for int() with base 10: '" +:+ s +:+ "'")).

(** [[f(x) for x in l]], stopping at the first [f(x)] that raises. *)
Fixpoint comprehension {A B} (f : A → result B) (l : list A)
  : result (list B) :=
  match l with
  | [] => Return []
  | x :: l' =>
      match f x with
      | Raise e => Raise e
      | Return y =>
          match comprehension f l' with
          | Raise e => Raise e
          | Return ys => Return (y :: ys)
          end
      end
  end.

End Py.

(** ** The fragment of [re] that [BindingParser] uses *)

Module Re.

(** Members of a character set [[...]]. *)
Inductive cset_item : Type :=
| Word            (* \w *)
| Digit           (* \d *)
| Lit (c : ascii) (* a literal character *).

Definition cset := list cset_item.

(** [\w] without the LOCALE and UNICODE flags is [[a-zA-Z0-9_]]. *)
Definition is_word (c : ascii) : bool :=
  Py.is_alnum c || Ascii.eqb c "_".

Definition item_matches (c : ascii) (i : cset_item) : bool :=
  match i with
  | Word => is_word c
  | Digit => Py.is_digit c
  | Lit c' => Ascii.eqb c c'
  end.

Definition in_cset (cs : cset) (c : ascii) : bool :=
  existsb (item_matches c) cs.

(** Patterns: anchors, a literal character, a greedy [+] on a character
    set, concatenation, a greedy [?], and groups (named or numbered). *)
Inductive regex : Type :=
| Bol                                      (* ^ *)
| Eol                                      (* $ *)
| Empty                                    (* the empty pattern *)
| Char (c : ascii)
| Plus (cs : cset)                         (* [cs]+ *)
| Seq (r1 r2 : regex)
| Opt (r : regex)                          (* r? *)
| Group (name : option string) (r : regex) (* (r) and (?P<name>r) *).

Definition cat (rs : list regex) : regex := foldr Seq Empty rs.

(** The state of a match attempt: how many characters are consumed, what
    is left of the subject, and what the named groups captured. *)
Record mstate : Type := MState {
  pos : nat;
  rest : string;
  groups : gmap string string
}.

(** The ways [[cs]+] can match at the front of [s], longest first; each is
    the matched text and what follows it. *)
Fixpoint plus_class (cs : cset) (s : string) : list (string * string) :=
  match s with
  | EmptyString => []
  | String c s' =>
      if in_cset cs c
      then (prod_map (String c) id <$> plus_class cs s') ++ [(String c "", s')]
      else []
  end.

Definition advance (st : mstate) (mr : string * string) : mstate :=
  MState (pos st + String.length mr.1) mr.2 (groups st).

Definition capture (name : option string) (st st' : mstate) : mstate :=
  match name with
  | Some n =>
      MState (pos st') (rest st')
             (<[n := substring 0 (pos st' - pos st) (rest st)]> (groups st'))
  | None => st'
  end.

(** [$] matches at the end of the subject and also just before a newline
    that is its last character. *)
Definition at_end (s : string) : bool :=
  String.eqb s "" || String.eqb s (String "010" "").

(** All the ways a pattern can match from a state, in the order in which
    the backtracking matcher tries them. *)
Fixpoint run (r : regex) (st : mstate) : list mstate :=
  match r with
  | Bol => if Nat.eqb (pos st) 0 then [st] else []
  | Eol => if at_end (rest st) then [st] else []
  | Empty => [st]
  | Char c =>
      match rest st with
      | String c' s' =>
          if Ascii.eqb c' c then [advance st (String c' "", s')] else []
      | EmptyString => []
      end
  | Plus cs => advance st <$> plus_class cs (rest st)
  | Seq r1 r2 => run r1 st ≫= run r2
  | Opt r' => run r' st ++ [st]
  | Group name r' => capture name st <$> run r' st
  end.

Fixpoint group_names (r : regex) : list string :=
  match r with
  | Seq r1 r2 => group_names r1 ++ group_names r2
  | Opt r' => group_names r'
  | Group (Some n) r' => n :: group_names r'
  | Group None r' => group_names r'
  | _ => []
  end.

Definition start (s : string) : mstate := MState 0 s ∅.

(** [regexp.match(s)]: the first way the pattern matches at the start of
    [s], if there is one. *)
Definition match_ (r : regex) (s : string) : option mstate :=
  head (run r (start s)).

(** [matched.groupdict()]: every named group of the pattern, with [None]
    for the ones that took no part in the match. *)
Definition groupdict {O} (r : regex) (m : mstate) : gmap string (Py.value O) :=
  list_to_map ((λ n, (n, Py.of_arg (groups m !! n))) <$> group_names r).

End Re.

(** ** [pf_rule.py]: [BindingParser] *)

Module BindingParser.
Import Re.

Definition word_or_dot : cset := [Word; Lit "."].
Definition digits : cset := [Digit].

(** [^((?P<bound_address>[\w.]+):)?(?P<local_port>\d+)]
    [:(?P<hostname>[\w.]+):(?P<remote_port>\d+)$] *)
Definition local_pf_re : regex :=
  cat [ Bol;
        Opt (Group None
               (cat [Group (Some "bound_address") (Plus word_or_dot); Char ":"]));
        Group (Some "local_port") (Plus digits);
        Char ":"; Group (Some "hostname") (Plus word_or_dot);
        Char ":"; Group (Some "remote_port") (Plus digits);
        Eol ].

(** [^((?P<bound_address>[\w.]+):)?(?P<local_port>\d+)]
    [(?P<hostname>)(?P<remote_port>)$] *)
Definition dynamic_pf_re : regex :=
  cat [ Bol;
        Opt (Group None
               (cat [Group (Some "bound_address") (Plus word_or_dot); Char ":"]));
        Group (Some "local_port") (Plus digits);
        Group (Some "hostname") Empty; Group (Some "remote_port") Empty;
        Eol ].

Section parsers.
Context {O : Type}.

Definition _parse (regexp : regex) (binding_str : string)
  : Py.result (gmap string (Py.value O)) :=
  match match_ regexp binding_str with
  | None => Py.Raise (Py.InvalidBinding "Invalid binding format.")
  | Some matched => Py.Return (groupdict regexp matched)
  end.

Definition local (binding_str : string) := _parse local_pf_re binding_str.

(** [remote = local] *)
Definition remote := local.

Definition dynamic (binding_str : string) := _parse dynamic_pf_re binding_str.
End parsers.

End BindingParser.

(** ** State and exceptions *)

Module Eff.
Import Py.

(** A computation over a state [St] that returns or raises. *)
Definition M (St A : Type) : Type := St → result A * St.

Section monad.
Context {St : Type}.

Definition ret {A} (a : A) : M St A := λ s, (Return a, s).
Definition raise {A} (e : exn) : M St A := λ s, (Raise e, s).
Definition bind {A B} (m : M St A) (k : A → M St B) : M St B :=
  λ s, match m s with
       | (Return a, s') => k a s'
       | (Raise e, s') => (Raise e, s')
       end.

(** A call of a function that raises but does not touch the state. *)
Definition lift {A} (r : result A) : M St A := λ s, (r, s).

(** [for x in l: body(x)] *)
Fixpoint for_each {A} (l : list A) (body : A → M St unit) : M St unit :=
  match l with
  | [] => ret tt
  | x :: l' => bind (body x) (λ _, for_each l' body)
  end.
End monad.

#[global] Instance M_ret {St} : MRet (M St) := @ret St.
#[global] Instance M_bind {St} : MBind (M St) := λ A B k m, bind m k.

End Eff.

(** ** What the parsed command line carries *)

Module Namespace.
(** The attributes of [parsed_args] that the two modules read: [delete]
    (store_true), [entry] (nargs='*'), and the options of the port
    forwarding command, [None] when not given.  The record stands for a
    namespace that has them all; [get_parser] below says for which commands
    the parser provides [delete] and [entry]. *)
Record t : Type := Make {
  delete : bool;
  entry : list string;
  host : option string;
  type : option string;
  binding : option string
}.
End Namespace.

(** The model classes of [core.models.terminal] that the modules name. *)
Inductive model_class : Type := Host | PFRule.

(** ** [single.py]: [DetailCommand] *)

Module DetailCommand.
Import Py Eff.

(** [all_operations = {'delete', 'update', 'create'}] *)
Definition all_operations : gset string :=
  {[ "delete"; "update"; "create" ]}.

(** The built-in [any], which [get_objects] hands to the storage. *)
Definition any (l : list bool) : bool := existsb id l.

(** The right-hand sides of the keyword arguments of [storage.filter]. *)
Inductive operand : Type :=
| Ints (l : list Z)
| Strs (l : list string).

(** [len(x) != 0], the truth value of a list. *)
Definition nonempty {A} (l : list A) : bool :=
  match l with [] => false | _ => true end.

(** The command object: its class attributes. *)
Record command : Type := Command {
  allowed_operations : gset string;
  model : model_class
}.

Section methods.
Context {St I : Type}.

(** What [DetailCommand] inherits or is handed, and [single.py] does not
    define: the constructor of [AbstractCommand], [storage.filter], and
    [create], [update_instance], [delete_instance] of
    [InstanceOpertionMixin]. *)
Variable super_init : M St unit.
Variable storage_filter :
  model_class → (list bool → bool) → gmap string operand → M St (list I).
Variable create : Namespace.t → M St unit.
Variable update_instance : Namespace.t → I → M St unit.
Variable delete_instance : I → M St unit.

Definition __init__ (self : command) : M St unit :=
  _ ← super_init;
  if decide (all_operations ∩ allowed_operations self = ∅)
  then raise AssertionError
  else mret tt.

(** [ids = [int(i) for i in ids__names if i.isdigit()]] *)
Definition parse_ids_names (ids__names : list string)
  : result (list Z * list string) :=
  match comprehension int (filter (λ i, isdigit i = true) ids__names) with
  | Raise e => Raise e
  | Return ids => Return (ids, ids__names)
  end.

Definition get_objects (self : command) (ids__names : list string)
  : M St (list I) :=
  '(ids, names) ← lift (parse_ids_names ids__names);
  instances ← storage_filter (model self) any
               {[ "id.rcontains" := Ints ids;
                  "label.rcontains" := Strs names ]};
  if negb (nonempty instances)
  then raise (DoesNotExistException "There aren't any instance.")
  else mret instances.

Definition update (self : command) (parsed_args : Namespace.t)
  : M St unit :=
  if negb (nonempty (Namespace.entry parsed_args))
  then raise (ArgumentRequiredException
                "At least one ID or NAME are required.")
  else
    instances ← get_objects self (Namespace.entry parsed_args);
    for_each instances (λ i, update_instance parsed_args i).

Definition delete (self : command) (parsed_args : Namespace.t)
  : M St unit :=
  if negb (nonempty (Namespace.entry parsed_args))
  then raise (ArgumentRequiredException
                "At least one ID or NAME are required.")
  else
    instances ← get_objects self (Namespace.entry parsed_args);
    for_each instances (λ i, delete_instance i).

Definition is_allow_delete (self : command) : bool :=
  bool_decide ("delete" ∈ allowed_operations self).
Definition is_allow_update (self : command) : bool :=
  bool_decide ("update" ∈ allowed_operations self).
Definition is_allow_create (self : command) : bool :=
  bool_decide ("create" ∈ allowed_operations self).

(** [get_parser]: the destinations it adds to those of the parser of the
    base class. *)
Definition get_parser (self : command) (base : list string) : list string :=
  base
  ++ (if is_allow_delete self then ["delete"] else [])
  ++ (if is_allow_create self || is_allow_update self
      then ["interactive"; "label"] else [])
  ++ (if is_allow_delete self || is_allow_update self then ["entry"] else []).

Definition take_action (self : command) (parsed_args : Namespace.t)
  : M St unit :=
  if is_allow_delete self && Namespace.delete parsed_args
  then delete self parsed_args
  else
    if is_allow_create self && negb (nonempty (Namespace.entry parsed_args))
    then create parsed_args
    else if is_allow_update self && nonempty (Namespace.entry parsed_args)
    then update self parsed_args
    else mret tt.
End methods.

End DetailCommand.

(** ** [pf_rule.py]: [PFRuleCommand] *)

Module PFRuleCommand.
Import Py Eff.

Section methods.
Context {St O : Type}.

(** A model instance: its attributes. *)
Abbreviation obj := (gmap string (value O)).

(** [o.name]; a missing attribute raises. *)
Definition getattr (o : obj) (name : string) : result (value O) :=
  match o !! name with
  | Some v => Return v
  | None => Raise (AttributeError name)
  end.

(** What [PFRuleCommand] inherits and [pf_rule.py] does not define:
    [get_relation] of [GetRelationMixin], and the attributes of a
    fresh [PFRule()]. *)
Variable get_relation : model_class → option string → M St (value O).
Variable PFRule_new : obj.

Definition binding_parsers
  : gmap string (string → result (gmap string (value O))) :=
  {[ "D" := BindingParser.dynamic;
     "L" := BindingParser.local;
     "R" := BindingParser.remote ]}.

(** [self.binding_parsers[pf_type](binding)] *)
Definition parse_binding (pf_type : value O) (binding : string)
  : result (gmap string (value O)) :=
  match pf_type with
  | Str k =>
      match binding_parsers !! k with
      | Some parser => parser binding
      | None => Raise (KeyError k)
      end
  | None_ => Raise (KeyError "None")
  | Obj _ => Raise (KeyError "<object>")
  end.

(** [x or y] *)
Definition or_ (x : value O) (y : result (value O)) : result (value O) :=
  if truthy x then Return x else y.

(** [for key, value in d.items(): setattr(o, key, value)] *)
Definition setattrs (o : obj) (d : gmap string (value O)) : obj :=
  map_fold (λ key v o', <[key := v]> o') o d.

Definition serialize_args (args : Namespace.t) (instance : option obj)
  : M St obj :=
  '(pfrule, host) ←
    match instance with
    | Some i =>
        h ← lift (getattr i "host");
        mret (i, h)
    | None =>
        h ← get_relation Host (Namespace.host args);
        if negb (truthy (of_arg (O:=O) (Namespace.type args)))
        then raise (ArgumentRequiredException "Type is required.")
        else mret (PFRule_new, h)
    end;
  t ← lift (or_ (of_arg (Namespace.type args)) (getattr pfrule "pf_type"));
  let pfrule := <["pf_type" := t]> pfrule in
  let pfrule := <["host" := host]> pfrule in
  match Namespace.binding args with
  | Some b =>
      if negb (String.eqb b "") then
        t' ← lift (getattr pfrule "pf_type");
        binding_dict ← lift (parse_binding t' b);
        mret (setattrs pfrule binding_dict)
      else mret pfrule
  | None => mret pfrule
  end.

(** *** The same on shared objects

    [serialize_args] above gives the rule as a value.  In the interpreter
    the rule of the update path is the instance itself, written in place
    ([pfrule, host = instance, instance.host]); the definitions below keep
    the objects in a heap, for what a caller that holds the instance sees,
    also when the call raises. *)

Abbreviation heap := (gmap positive (gmap string (value O))).

(** The attributes of the object at a reference. *)
Definition attrs (h : heap) (l : positive) : obj := default ∅ (h !! l).

(** A call that concerns the storage only. *)
Definition on_storage {A} (m : M St A) : M (St * heap) A :=
  λ sh, let '(r, s') := m sh.1 in (r, (s', sh.2)).

(** [o.name] *)
Definition read (l : positive) (name : string) : M (St * heap) (value O) :=
  λ sh, (getattr (attrs sh.2 l) name, sh).

(** [o.name = v] and [setattr(o, name, v)] *)
Definition write (l : positive) (name : string) (v : value O)
  : M (St * heap) unit :=
  λ sh, (Return tt, (sh.1, <[l := <[name := v]> (attrs sh.2 l)]> sh.2)).

(** [for key, value in d.items(): setattr(o, key, value)] *)
Definition write_all (l : positive) (d : gmap string (value O))
  : M (St * heap) unit :=
  λ sh, (Return tt, (sh.1, <[l := setattrs (attrs sh.2 l) d]> sh.2)).

(** [PFRule()]: a new object. *)
Definition new (o : obj) : M (St * heap) positive :=
  λ sh, let l := fresh (dom sh.2) in (Return l, (sh.1, <[l := o]> sh.2)).

Definition serialize_args_at (args : Namespace.t) (instance : option positive)
  : M (St * heap) positive :=
  '(pfrule, host) ←
    match instance with
    | Some i =>
        h ← read i "host";
        mret (i, h)
    | None =>
        p ← new PFRule_new;
        h ← on_storage (get_relation Host (Namespace.host args));
        if negb (truthy (of_arg (O:=O) (Namespace.type args)))
        then raise (ArgumentRequiredException "Type is required.")
        else mret (p, h)
    end;
  t ← (if truthy (of_arg (O:=O) (Namespace.type args))
       then mret (of_arg (Namespace.type args))
       else read pfrule "pf_type");
  _ ← write pfrule "pf_type" t;
  _ ← write pfrule "host" host;
  match Namespace.binding args with
  | Some b =>
      if negb (String.eqb b "") then
        t' ← read pfrule "pf_type";
        binding_dict ← lift (parse_binding t' b);
        _ ← write_all pfrule binding_dict;
        mret pfrule
      else mret pfrule
  | None => mret pfrule
  end.
End methods.

End PFRuleCommand.

(** * Vocabulary of the properties *)

Module Spec.
Import Py Re Eff BindingParser DetailCommand.

(** Where a run of [p]-characters stops: at the end, or before a character
    that is not one. *)
Definition stops (p : ascii → bool) (s : string) : Prop :=
  match s with
  | EmptyString => True
  | String c _ => p c = false
  end.

(** What it means for a pattern to match the text [m] at position [p],
    with [after] following it in the subject, taking the groups from [g]
    to [g']. *)
Fixpoint sem (r : regex) (p : nat) (g : gmap string string)
    (m after : string) (g' : gmap string string) : Prop :=
  match r with
  | Bol => p = 0%nat ∧ m = "" ∧ g' = g
  | Eol => at_end after = true ∧ m = "" ∧ g' = g
  | Empty => m = "" ∧ g' = g
  | Char c => m = String c "" ∧ g' = g
  | Plus cs => m ≠ "" ∧ all_chars (in_cset cs) m = true ∧ g' = g
  | Seq r1 r2 =>
      ∃ m1 m2 g1, m = m1 +:+ m2 ∧
        sem r1 p g m1 (m2 +:+ after) g1 ∧
        sem r2 (p + String.length m1) g1 m2 after g'
  | Opt r' => sem r' p g m after g' ∨ (m = "" ∧ g' = g)
  | Group (Some n) r' => ∃ g1, sem r' p g m after g1 ∧ g' = <[n := m]> g1
  | Group None r' => sem r' p g m after g'
  end.

(** *** The binding grammar, as the specification words it *)

(** A line feed, the one character [$] tolerates after the match. *)
Definition LF : string := String "010" "".

(** One or more of [\w] and [.]: a bound address or a host name. *)
Definition name_text (s : string) : Prop :=
  s ≠ "" ∧ all_chars (in_cset word_or_dot) s = true.

(** One or more of [\d]: a port. *)
Definition port_text (s : string) : Prop :=
  s ≠ "" ∧ all_chars (in_cset digits) s = true.

Definition line_end (s : string) : Prop := s = "" ∨ s = LF.

(** [[bound_address:]] *)
Definition addr_prefix (ba : option string) : string :=
  match ba with
  | Some a => a +:+ ":"
  | None => ""
  end.

Definition addr_ok (ba : option string) : Prop :=
  match ba with
  | Some a => name_text a
  | None => True
  end.

(** [[bound_address:]local_port:hostname:remote_port] *)
Definition local_form (s : string) (ba : option string) (lp hn rp : string)
  : Prop :=
  ∃ nl, s = addr_prefix ba +:+ lp +:+ ":" +:+ hn +:+ ":" +:+ rp +:+ nl ∧
        addr_ok ba ∧ port_text lp ∧ name_text hn ∧ port_text rp ∧
        line_end nl.

(** [[bound_address:]local_port] *)
Definition dynamic_form (s : string) (ba : option string) (lp : string)
  : Prop :=
  ∃ nl, s = addr_prefix ba +:+ lp +:+ nl ∧
        addr_ok ba ∧ port_text lp ∧ line_end nl.

(** The uniform four-field result. *)
Definition fields {O} (bound_address local_port hostname remote_port : value O)
  : gmap string (value O) :=
  {[ "bound_address" := bound_address; "local_port" := local_port;
     "hostname" := hostname; "remote_port" := remote_port ]}.

(** What the named groups hold after a match. *)
Definition captured (ba : option string) (lp hn rp : string)
  : gmap string string :=
  <["remote_port" := rp]>
    (<["hostname" := hn]>
       (<["local_port" := lp]>
          (match ba with
           | Some a => <["bound_address" := a]> ∅
           | None => ∅
           end))).



(** A binding string fits the grammar of a forwarding type, named by the
    abbreviation [binding_parsers] files it under. *)
Definition matches_grammar (pf_type : string) (s : string) : Prop :=
  (pf_type = "D" ∧ ∃ ba lp, dynamic_form s ba lp) ∨
  ((pf_type = "L" ∨ pf_type = "R") ∧ ∃ ba lp hn rp, local_form s ba lp hn rp).

(** *** The dispatch rule, as the specification orders it *)

Inductive path : Type := DeletePath | CreatePath | UpdatePath | NoOperation.

Definition dispatch_rule (allowed : gset string) (delete_flag : bool)
    (entry : list string) : path :=
  if decide ("delete" ∈ allowed ∧ delete_flag = true) then DeletePath
  else if decide ("create" ∈ allowed ∧ entry = []) then CreatePath
  else if decide ("update" ∈ allowed ∧ entry ≠ []) then UpdatePath
  else NoOperation.

(** *** Tokens *)

(** The one-character string that holds a superscript two. *)
Definition superscript_two : string := String "178" "".

(** Every token that [str.isdigit] accepts is made of decimal digits. *)
Definition decimal_tokens (tokens : list string) : Prop :=
  Forall (λ t, isdigit t = true → all_chars is_digit t = true) tokens.

(** *** Counting separators *)

(** How many [:] a string holds. *)
Fixpoint colons (s : string) : nat :=
  match s with
  | EmptyString => 0%nat
  | String c s' => ((if Ascii.eqb c ":" then 1 else 0) + colons s')%nat
  end.

(** The errors an update through [serialize_args] can end in. *)
Definition update_error (e : exn) : Prop :=
  e = AttributeError "host" ∨ e = AttributeError "pf_type" ∨
  (∃ k, e = KeyError k) ∨ e = InvalidBinding "Invalid binding format.".

End Spec.

(** ** A storage to run the commands against *)

Module Store.
Import Py Eff DetailCommand.

Record entity : Type := Entity { id : Z; label : string }.

#[global] Instance entity_eq_dec : EqDecision entity.
Proof. solve_decision. Defined.

(** The entities of each model. *)
Definition store : Type := model_class → list entity.

Definition id_in (kw : gmap string operand) (e : entity) : bool :=
  match kw !! "id.rcontains" with
  | Some (Ints l) => bool_decide (id e ∈ l)
  | _ => false
  end.

Definition label_in (kw : gmap string operand) (e : entity) : bool :=
  match kw !! "label.rcontains" with
  | Some (Strs l) => bool_decide (label e ∈ l)
  | _ => false
  end.

(** Modelled from the spec: the storage engine behind [storage.filter],
    which is not part of the two modules.  Section 6 gives it as
    [filter(entity_type, combine_fn, **field_predicates) -> list of entities]
    and section 4.2 has an entity match "if its ID is in the ID-candidate set
    OR its label is in the label-candidate set", the two tests being combined
    by the function handed over. *)
Definition filter_ (mc : model_class) (combine : list bool → bool)
    (kw : gmap string operand) : M store (list entity) :=
  λ st, (Return (filter (λ e, combine [id_in kw e; label_in kw e] = true)
                        (st mc)), st).

(** Modelled from the spec: the get-strategy behind [get_relation], which
    is not part of the two modules.  Section 4.3: "resolve a single related
    Entity of a given type from a token (ID or label); fails with
    DoesNotExist if no unique match". *)
Definition get (mc : model_class) (token : option string)
  : M store (value entity) :=
  λ st,
    let hit e :=
      match token with
      | Some t =>
          match int t with
          | Return n => Z.eqb (id e) n
          | Raise _ => false
          end || String.eqb (label e) t
      | None => false
      end in
    match filter (λ e, hit e = true) (st mc) with
    | [e] => (Return (Obj e), st)
    | _ => (Raise (DoesNotExistException ""), st)
    end.

(** An instance operation to run the loops of [update] and [delete] with:
    it takes the entity out of the store, unless it is the one with the
    identifier [locked], for which it raises. *)
Definition drop_unless (locked : Z) (e : entity) : M store unit :=
  λ st,
    if Z.eqb (id e) locked then (Raise (Exception_ "locked"), st)
    else (Return tt,
          λ mc, filter (λ x, negb (Z.eqb (id x) (id e)) = true) (st mc)).

(** A store with two hosts and nothing else. *)
Definition two_hosts : store :=
  λ mc, match mc with
        | Host => [Entity 3 "db"; Entity 7 "web1"]
        | PFRule => []
        end.

(** A store with nothing in it. *)
Definition nothing : store := λ _, [].

End Store.

(** * Properties *)

(** ** Strings *)

Module StrFacts.
Import Py Spec.

Lemma app_nil_l (s : string) : "" +:+ s = s.
Proof. reflexivity. Qed.

Lemma app_cons (c : ascii) (s t : string) :
  String c s +:+ t = String c (s +:+ t).
Proof. reflexivity. Qed.

Lemma app_nil_r (s : string) : s +:+ "" = s.
Proof. induction s as [|c s IH]; [done|]. by rewrite app_cons, IH. Qed.

Lemma app_assoc (a b c : string) : (a +:+ b) +:+ c = a +:+ (b +:+ c).
Proof.
  induction a as [|x a IH]; [done|]. by rewrite !app_cons, IH.
Qed.

Lemma length_app (a b : string) :
  String.length (a +:+ b) = (String.length a + String.length b)%nat.
Proof.
  induction a as [|x a IH]; [done|]. rewrite app_cons. simpl. by rewrite IH.
Qed.

Lemma substring_app (m r : string) :
  substring 0 (String.length m) (m +:+ r) = m.
Proof.
  induction m as [|x m IH]; [by destruct r|].
  rewrite app_cons. simpl. by rewrite IH.
Qed.

Lemma all_chars_app (p : ascii → bool) (a b : string) :
  all_chars p (a +:+ b) = all_chars p a && all_chars p b.
Proof.
  induction a as [|x a IH]; [done|].
  rewrite app_cons. simpl. rewrite IH. by rewrite andb_assoc.
Qed.

Lemma all_chars_impl (p q : ascii → bool) (s : string) :
  (∀ c, p c = true → q c = true) →
  all_chars p s = true → all_chars q s = true.
Proof.
  intros Hpq. induction s as [|c s IH]; [done|]. simpl.
  intros [Hc Hs]%andb_true_iff. rewrite (Hpq _ Hc). by apply IH.
Qed.

(** A maximal run of [p]-characters at the front of a string is unique. *)
Lemma span_unique (p : ascii → bool) (a b x y : string) :
  all_chars p a = true → all_chars p b = true →
  stops p x → stops p y →
  a +:+ x = b +:+ y → a = b ∧ x = y.
Proof.
  revert b. induction a as [|c a IH]; intros [|d b] Ha Hb Hx Hy Heq.
  - done.
  - rewrite app_nil_l, app_cons in Heq. subst x. simpl in *.
    apply andb_true_iff in Hb as [Hd _]. congruence.
  - rewrite app_nil_l, app_cons in Heq. subst y. simpl in *.
    apply andb_true_iff in Ha as [Hc _]. congruence.
  - rewrite !app_cons in Heq. injection Heq as -> Heq. simpl in *.
    apply andb_true_iff in Ha as [_ Ha]. apply andb_true_iff in Hb as [_ Hb].
    destruct (IH b Ha Hb Hx Hy Heq) as [-> ->]. done.
Qed.

End StrFacts.

(** ** The matcher *)

Module ReFacts.
Import Py Re Spec StrFacts.

(** [plus_class] lists exactly the non-empty runs of set members at the
    front of the string. *)
Lemma elem_of_plus_class (cs : cset) (s m r : string) :
  (m, r) ∈ plus_class cs s ↔
  m ≠ "" ∧ all_chars (in_cset cs) m = true ∧ s = m +:+ r.
Proof.
  revert m. induction s as [|c s IH]; intros m; simpl.
  - split; [by intros ?%elem_of_nil|].
    intros (Hm & _ & Heq). destruct m; [done|]. by rewrite app_cons in Heq.
  - destruct (in_cset cs c) eqn:Hc.
    + rewrite elem_of_app, list_elem_of_fmap, list_elem_of_singleton. split.
      * intros [([m' r'] & Heq & Hin) | Heq].
        -- simpl in Heq. injection Heq as -> ->.
           apply IH in Hin as (_ & Hall & ->). simpl. rewrite Hc, Hall. done.
        -- injection Heq as -> ->. simpl. by rewrite Hc.
      * intros (Hm & Hall & Heq). destruct m as [|d m]; [done|].
        rewrite app_cons in Heq. injection Heq as <- ->.
        simpl in Hall. apply andb_true_iff in Hall as [_ Hall].
        destruct m as [|e m].
        -- right. done.
        -- left. exists (String e m, r). split; [done|].
           apply IH. done.
    + split; [by intros ?%elem_of_nil|].
      intros (Hm & Hall & Heq). destruct m as [|d m]; [done|].
      rewrite app_cons in Heq. injection Heq as <- ->.
      simpl in Hall. rewrite Hc in Hall. done.
Qed.

(** The matcher finds exactly the matches. *)
Lemma elem_of_run (r : regex) (st st' : mstate) :
  st' ∈ run r st ↔
  ∃ m, rest st = m +:+ rest st' ∧
       pos st' = (pos st + String.length m)%nat ∧
       sem r (pos st) (groups st) m (rest st') (groups st').
Proof.
  revert st st'. induction r as [| | |c|cs|r1 IH1 r2 IH2|r IH|name r IH];
    intros st st'; simpl.
  - (* ^ *)
    destruct (Nat.eqb_spec (pos st) 0) as [Hp|Hp].
    + rewrite list_elem_of_singleton. split.
      * intros ->. exists "". rewrite Nat.add_0_r. done.
      * intros (m & Hr & Hpos & _ & -> & Hg). rewrite app_nil_l in Hr.
        simpl in Hpos. rewrite Nat.add_0_r in Hpos.
        destruct st, st'; simpl in *; congruence.
    + split; [by intros ?%elem_of_nil|]. intros (m & _ & _ & ? & _). done.
  - (* $ *)
    destruct (at_end (rest st)) eqn:He.
    + rewrite list_elem_of_singleton. split.
      * intros ->. exists "". rewrite Nat.add_0_r. done.
      * intros (m & Hr & Hpos & _ & -> & Hg). rewrite app_nil_l in Hr.
        simpl in Hpos. rewrite Nat.add_0_r in Hpos.
        destruct st, st'; simpl in *; congruence.
    + split; [by intros ?%elem_of_nil|].
      intros (m & Hr & _ & He' & -> & _). rewrite app_nil_l in Hr. congruence.
  - (* empty *)
    rewrite list_elem_of_singleton. split.
    + intros ->. exists "". rewrite Nat.add_0_r. done.
    + intros (m & Hr & Hpos & -> & Hg). rewrite app_nil_l in Hr.
      simpl in Hpos. rewrite Nat.add_0_r in Hpos.
      destruct st, st'; simpl in *; congruence.
  - (* a character *)
    destruct (rest st) as [|c' s'] eqn:Hrest.
    + split; [by intros ?%elem_of_nil|]. intros (m & Hr & _ & -> & _). done.
    + destruct (Ascii.eqb_spec c' c) as [->|Hne].
      * rewrite list_elem_of_singleton. split.
        -- intros ->. exists (String c ""). done.
        -- intros (m & Hr & Hpos & -> & Hg). rewrite app_cons, app_nil_l in Hr.
           injection Hr as ->. destruct st'; unfold advance; simpl in *.
           congruence.
      * split; [by intros ?%elem_of_nil|].
        intros (m & Hr & _ & -> & _). rewrite app_cons in Hr. congruence.
  - (* [cs]+ *)
    rewrite list_elem_of_fmap. split.
    + intros ([m r] & -> & Hin). apply elem_of_plus_class in Hin as (?&?&?).
      exists m. done.
    + intros (m & Hr & Hpos & Hm & Hall & Hg). exists (m, rest st'). split.
      * destruct st'; unfold advance; simpl in *. congruence.
      * apply elem_of_plus_class. done.
  - (* concatenation *)
    rewrite list_elem_of_bind. split.
    + intros (mid & (m2 & Hr2 & Hp2 & Hs2)%IH2 & (m1 & Hr1 & Hp1 & Hs1)%IH1).
      exists (m1 +:+ m2). rewrite app_assoc, length_app, <- Hr2.
      split; [done|]. split; [lia|].
      exists m1, m2, (groups mid). rewrite <- Hr2, <- Hp1. done.
    + intros (m & Hr & Hpos & m1 & m2 & g1 & -> & Hs1 & Hs2).
      rewrite app_assoc in Hr. rewrite length_app in Hpos.
      exists (MState (pos st + String.length m1) (m2 +:+ rest st') g1).
      split; [apply IH2 | apply IH1]; simpl.
      * exists m2. split; [done|]. split; [lia|]. done.
      * exists m1. done.
  - (* r? *)
    rewrite elem_of_app, list_elem_of_singleton, IH. split.
    + intros [(m & ? & ? & ?) | ->].
      * exists m. auto.
      * exists "". rewrite Nat.add_0_r. auto.
    + intros (m & Hr & Hpos & [Hs | [-> Hg]]).
      * left. exists m. done.
      * right. rewrite app_nil_l in Hr. simpl in Hpos.
        rewrite Nat.add_0_r in Hpos. destruct st, st'; simpl in *; congruence.
  - (* groups *)
    rewrite list_elem_of_fmap. destruct name as [n|]; simpl.
    + split.
      * intros (st1 & -> & (m & Hr & Hpos & Hs)%IH). simpl.
        exists m. split; [done|]. split; [done|]. exists (groups st1).
        split; [done|]. rewrite Hr, Hpos.
        replace (pos st + String.length m - pos st)%nat
          with (String.length m) by lia.
        by rewrite substring_app.
      * intros (m & Hr & Hpos & g1 & Hs & Hg).
        exists (MState (pos st') (rest st') g1). split.
        -- unfold capture. simpl. rewrite Hr, Hpos.
           replace (pos st + String.length m - pos st)%nat
             with (String.length m) by lia.
           rewrite substring_app. destruct st'; simpl in *. congruence.
        -- apply IH. exists m. done.
    + split.
      * intros (st1 & -> & Hin). by apply IH.
      * intros Hs. exists st'. split; [done|]. by apply IH.
Qed.

End ReFacts.

(** ** The two patterns *)

Module BindingFacts.
Import Py Re BindingParser Spec StrFacts ReFacts.

Lemma in_digits (c : ascii) : in_cset digits c = is_digit c.
Proof. unfold in_cset, digits. simpl. by rewrite orb_false_r. Qed.

Lemma digit_in_word_or_dot (c : ascii) :
  in_cset digits c = true → in_cset word_or_dot c = true.
Proof.
  rewrite in_digits. unfold in_cset, word_or_dot. simpl.
  unfold is_word, is_alnum. intros ->. by rewrite !orb_true_r.
Qed.

Lemma port_is_name (s : string) : port_text s → name_text s.
Proof.
  intros [? ?]. split; [done|].
  by apply (all_chars_impl (in_cset digits)); [apply digit_in_word_or_dot|].
Qed.

Lemma at_end_line_end (s : string) : at_end s = true ↔ line_end s.
Proof.
  unfold at_end, line_end, LF.
  rewrite orb_true_iff, !String.eqb_eq. done.
Qed.

Lemma sem_optional_address (p : nat) (g : gmap string string)
    (m after : string) (g' : gmap string string) :
  sem (Opt (Group None
              (cat [Group (Some "bound_address") (Plus word_or_dot); Char ":"])))
      p g m after g' ↔
  ∃ ba, m = addr_prefix ba ∧ addr_ok ba ∧
        g' = match ba with Some a => <["bound_address" := a]> g | None => g end.
Proof.
  simpl. split.
  - intros [(m1 & m2 & g1 & -> & (g0 & (Hne & Hall & ->) & ->) &
             (m3 & m4 & g2 & -> & (-> & ->) & (-> & ->))) | [-> ->]].
    + exists (Some m1). rewrite app_nil_r. done.
    + exists None. done.
  - intros ([a|] & -> & Hok & ->).
    + left. destruct Hok as [Hne Hall].
      exists a, ":", (<["bound_address" := a]> g). split; [done|]. split.
      * exists g. done.
      * exists ":", "", (<["bound_address" := a]> g). done.
    + right. done.
Qed.

(** What a match of [local_pf_re] at the start of a subject looks like. *)
Lemma sem_local (m after : string) (g' : gmap string string) :
  sem local_pf_re 0 ∅ m after g' ↔
  ∃ ba lp hn rp,
    m = addr_prefix ba +:+ lp +:+ ":" +:+ hn +:+ ":" +:+ rp ∧
    addr_ok ba ∧ port_text lp ∧ name_text hn ∧ port_text rp ∧
    line_end after ∧ g' = captured ba lp hn rp.
Proof.
  unfold local_pf_re, cat. cbn [foldr].
  set (address := Opt _). cbn [sem]. split.
  - intros (m1 & m2 & g1 & -> & (_ & -> & ->) & H).
    destruct H as (m3 & m4 & g2 & -> & Ha & H).
    apply sem_optional_address in Ha as (ba & -> & Hba & ->).
    destruct H as (lp & m5 & g3 & -> & (g4 & (? & ? & ->) & ->) & H).
    destruct H as (? & m6 & g5 & -> & (-> & ->) & H).
    destruct H as (hn & m7 & g6 & -> & (g7 & (? & ? & ->) & ->) & H).
    destruct H as (? & m8 & g8 & -> & (-> & ->) & H).
    destruct H as (rp & m9 & g9 & -> & (g10 & (? & ? & ->) & ->) & H).
    destruct H as (? & ? & g11 & -> & (He & -> & ->) & (-> & ->)).
    exists ba, lp, hn, rp. rewrite !app_nil_r in *.
    apply at_end_line_end in He. unfold port_text, name_text, captured.
    destruct ba; done.
  - intros (ba & lp & hn & rp & -> & Hba & [? ?] & [? ?] & [? ?] & He & ->).
    apply at_end_line_end in He.
    set (g1 := match ba with
               | Some a => <["bound_address" := a]> (∅ : gmap string string)
               | None => ∅
               end).
    exists "", (addr_prefix ba +:+ lp +:+ ":" +:+ hn +:+ ":" +:+ rp), ∅.
    do 2 (split; [done|]).
    exists (addr_prefix ba), (lp +:+ ":" +:+ hn +:+ ":" +:+ rp), g1.
    split; [done|]. split; [apply sem_optional_address; by exists ba|].
    exists lp, (":" +:+ hn +:+ ":" +:+ rp), (<["local_port" := lp]> g1).
    split; [done|]. split; [by exists g1|].
    exists ":", (hn +:+ ":" +:+ rp), (<["local_port" := lp]> g1).
    do 2 (split; [done|]).
    exists hn, (":" +:+ rp), (<["hostname" := hn]> (<["local_port" := lp]> g1)).
    split; [done|]. split; [by eexists|].
    exists ":", rp, (<["hostname" := hn]> (<["local_port" := lp]> g1)).
    do 2 (split; [done|]).
    exists rp, "", (captured ba lp hn rp).
    split; [by rewrite app_nil_r|]. split; [by eexists|].
    exists "", "", (captured ba lp hn rp). rewrite app_nil_l. done.
Qed.

(** What a match of [dynamic_pf_re] at the start of a subject looks like. *)
Lemma sem_dynamic (m after : string) (g' : gmap string string) :
  sem dynamic_pf_re 0 ∅ m after g' ↔
  ∃ ba lp,
    m = addr_prefix ba +:+ lp ∧ addr_ok ba ∧ port_text lp ∧
    line_end after ∧ g' = captured ba lp "" "".
Proof.
  unfold dynamic_pf_re, cat. cbn [foldr].
  set (address := Opt _). cbn [sem]. split.
  - intros (m1 & m2 & g1 & -> & (_ & -> & ->) & H).
    destruct H as (m3 & m4 & g2 & -> & Ha & H).
    apply sem_optional_address in Ha as (ba & -> & Hba & ->).
    destruct H as (lp & m5 & g3 & -> & (g4 & (? & ? & ->) & ->) & H).
    destruct H as (? & m6 & g5 & -> & (g6 & (-> & ->) & ->) & H).
    destruct H as (? & m7 & g7 & -> & (g8 & (-> & ->) & ->) & H).
    destruct H as (? & ? & g9 & -> & (He & -> & ->) & (-> & ->)).
    exists ba, lp. rewrite !app_nil_r in *.
    apply at_end_line_end in He. unfold port_text, captured.
    destruct ba; done.
  - intros (ba & lp & -> & Hba & [? ?] & He & ->).
    apply at_end_line_end in He.
    set (g1 := match ba with
               | Some a => <["bound_address" := a]> (∅ : gmap string string)
               | None => ∅
               end).
    exists "", (addr_prefix ba +:+ lp), ∅.
    do 2 (split; [done|]).
    exists (addr_prefix ba), lp, g1.
    split; [done|]. split; [apply sem_optional_address; by exists ba|].
    exists lp, "", (<["local_port" := lp]> g1).
    split; [by rewrite app_nil_r|]. split; [by eexists|].
    exists "", "", (<["hostname" := ""]> (<["local_port" := lp]> g1)).
    split; [done|]. split; [by eexists|].
    exists "", "", (captured ba lp "" "").
    split; [done|]. split; [by eexists|].
    exists "", "", (captured ba lp "" ""). done.
Qed.

(** The dictionary built from the groups of either pattern. *)
Lemma groupdict_local {O} (st : mstate) (ba : option string) (lp hn rp : string) :
  groups st = captured ba lp hn rp →
  groupdict (O:=O) local_pf_re st = fields (of_arg ba) (Str lp) (Str hn) (Str rp).
Proof.
  intros Hg. unfold groupdict. rewrite Hg. destruct ba; vm_compute; reflexivity.
Qed.

Lemma groupdict_dynamic {O} (st : mstate) (ba : option string) (lp hn rp : string) :
  groups st = captured ba lp hn rp →
  groupdict (O:=O) dynamic_pf_re st = fields (of_arg ba) (Str lp) (Str hn) (Str rp).
Proof.
  intros Hg. unfold groupdict. rewrite Hg. destruct ba; vm_compute; reflexivity.
Qed.

(** The candidates the matcher lists for a subject. *)
Lemma elem_of_run_local (s : string) (st : mstate) :
  st ∈ run local_pf_re (start s) ↔
  ∃ ba lp hn rp,
    s = addr_prefix ba +:+ lp +:+ ":" +:+ hn +:+ ":" +:+ rp +:+ rest st ∧
    addr_ok ba ∧ port_text lp ∧ name_text hn ∧ port_text rp ∧
    line_end (rest st) ∧ groups st = captured ba lp hn rp ∧
    pos st = String.length
               (addr_prefix ba +:+ lp +:+ ":" +:+ hn +:+ ":" +:+ rp).
Proof.
  rewrite elem_of_run. simpl. split.
  - intros (m & -> & Hpos &
            (ba & lp & hn & rp & -> & ? & ? & ? & ? & ? & ?)%sem_local).
    exists ba, lp, hn, rp. rewrite !app_assoc. done.
  - intros (ba & lp & hn & rp & -> & ? & ? & ? & ? & ? & ? & ?).
    exists (addr_prefix ba +:+ lp +:+ ":" +:+ hn +:+ ":" +:+ rp).
    rewrite !app_assoc. split; [done|]. split; [done|].
    apply sem_local. exists ba, lp, hn, rp. done.
Qed.

Lemma elem_of_run_dynamic (s : string) (st : mstate) :
  st ∈ run dynamic_pf_re (start s) ↔
  ∃ ba lp,
    s = addr_prefix ba +:+ lp +:+ rest st ∧
    addr_ok ba ∧ port_text lp ∧
    line_end (rest st) ∧ groups st = captured ba lp "" "" ∧
    pos st = String.length (addr_prefix ba +:+ lp).
Proof.
  rewrite elem_of_run. simpl. split.
  - intros (m & -> & Hpos & (ba & lp & -> & ? & ? & ? & ?)%sem_dynamic).
    exists ba, lp. rewrite !app_assoc. done.
  - intros (ba & lp & -> & ? & ? & ? & ? & ?).
    exists (addr_prefix ba +:+ lp).
    rewrite !app_assoc. split; [done|]. split; [done|].
    apply sem_dynamic. exists ba, lp. done.
Qed.

(** *** A subject has at most one reading *)

Lemma split_field (p : ascii → bool) (a b x y : string) :
  p ":"%char = false →
  all_chars p a = true → all_chars p b = true →
  a +:+ ":" +:+ x = b +:+ ":" +:+ y → a = b ∧ x = y.
Proof.
  intros Hp Ha Hb Heq.
  destruct (span_unique p a b (":" +:+ x) (":" +:+ y)) as [-> Hxy]; try done.
  injection Hxy as Hxy. exact (conj eq_refl Hxy).
Qed.

Lemma split_last (p : ascii → bool) (a b x y : string) :
  p "010"%char = false →
  all_chars p a = true → all_chars p b = true →
  line_end x → line_end y →
  a +:+ x = b +:+ y → a = b ∧ x = y.
Proof.
  intros Hp Ha Hb Hx Hy Heq.
  apply (span_unique p); try done.
  - by destruct Hx as [-> | ->].
  - by destruct Hy as [-> | ->].
Qed.

Lemma field_not_last (p : ascii → bool) (a b x y : string) :
  p ":"%char = false → p "010"%char = false →
  all_chars p a = true → all_chars p b = true →
  line_end y →
  a +:+ ":" +:+ x ≠ b +:+ y.
Proof.
  intros Hc Hn Ha Hb Hy Heq.
  destruct (span_unique p a b (":" +:+ x) y) as [_ Hxy]; try done.
  - by destruct Hy as [-> | ->].
  - by destruct Hy as [-> | ->].
Qed.

Local Ltac name_chars :=
  repeat match goal with
  | H : port_text _ |- _ => apply port_is_name in H
  | H : name_text _ |- _ => destruct H as [? ?]
  end.

Lemma local_form_unique (s : string) (ba ba' : option string)
    (lp hn rp lp' hn' rp' : string) :
  local_form s ba lp hn rp → local_form s ba' lp' hn' rp' →
  ba = ba' ∧ lp = lp' ∧ hn = hn' ∧ rp = rp'.
Proof.
  intros (nl & -> & Hba & Hlp & Hhn & Hrp & Hnl)
         (nl' & Heq & Hba' & Hlp' & Hhn' & Hrp' & Hnl').
  set (p := in_cset word_or_dot).
  assert (p ":"%char = false) as Hc by done.
  assert (p "010"%char = false) as Hn by done.
  destruct ba as [a|], ba' as [a'|]; simpl in *; name_chars;
    rewrite ?app_assoc, ?app_nil_l in Heq.
  - apply (split_field p) in Heq as [-> Heq]; [|done..].
    apply (split_field p) in Heq as [-> Heq]; [|done..].
    apply (split_field p) in Heq as [-> Heq]; [|done..].
    apply (split_last p) in Heq as [-> _]; done.
  - apply (split_field p) in Heq as [-> Heq]; [|done..].
    apply (split_field p) in Heq as [-> Heq]; [|done..].
    by apply (field_not_last p) in Heq.
  - apply (split_field p) in Heq as [-> Heq]; [|done..].
    apply (split_field p) in Heq as [-> Heq]; [|done..].
    symmetry in Heq. by apply (field_not_last p) in Heq.
  - apply (split_field p) in Heq as [-> Heq]; [|done..].
    apply (split_field p) in Heq as [-> Heq]; [|done..].
    apply (split_last p) in Heq as [-> _]; done.
Qed.

Lemma dynamic_form_unique (s : string) (ba ba' : option string)
    (lp lp' : string) :
  dynamic_form s ba lp → dynamic_form s ba' lp' → ba = ba' ∧ lp = lp'.
Proof.
  intros (nl & -> & Hba & Hlp & Hnl) (nl' & Heq & Hba' & Hlp' & Hnl').
  set (p := in_cset word_or_dot).
  assert (p ":"%char = false) as Hc by done.
  assert (p "010"%char = false) as Hn by done.
  destruct ba as [a|], ba' as [a'|]; simpl in *; name_chars;
    rewrite ?app_assoc, ?app_nil_l in Heq.
  - apply (split_field p) in Heq as [-> Heq]; [|done..].
    apply (split_last p) in Heq as [-> _]; done.
  - by apply (field_not_last p) in Heq.
  - symmetry in Heq. by apply (field_not_last p) in Heq.
  - apply (split_last p) in Heq as [-> _]; done.
Qed.

End BindingFacts.

(** ** [BindingParser]: what the parsers return *)

Module ParserFacts.
Import Py Re BindingParser Spec StrFacts ReFacts BindingFacts.

Section parsers.
Context {O : Type}.

(** [_parse] returns or raises [InvalidBinding] with its fixed message. *)
Lemma parse_outcome (regexp : regex) (s : string) :
  (∃ st, match_ regexp s = Some st ∧
         _parse (O:=O) regexp s = Return (groupdict regexp st)) ∨
  (match_ regexp s = None ∧
   _parse (O:=O) regexp s = Raise (InvalidBinding "Invalid binding format.")).
Proof.
  unfold _parse. destruct (match_ regexp s) as [st|]; [left|right]; eauto.
Qed.

Lemma local_returns (s : string) (d : gmap string (value O)) :
  local s = Return d →
  ∃ ba lp hn rp,
    local_form s ba lp hn rp ∧
    d = fields (of_arg ba) (Str lp) (Str hn) (Str rp).
Proof.
  unfold local. destruct (parse_outcome local_pf_re s)
    as [(st & Hm & ->) | [_ ->]]; [|done].
  intros [= <-]. apply head_Some_elem_of in Hm.
  apply elem_of_run_local in Hm
    as (ba & lp & hn & rp & Hs & ? & ? & ? & ? & ? & Hg & _).
  exists ba, lp, hn, rp. split.
  - exists (rest st). done.
  - by apply groupdict_local.
Qed.

Lemma local_of_form (s : string) (ba : option string) (lp hn rp : string) :
  local_form s ba lp hn rp →
  local (O:=O) s = Return (fields (of_arg ba) (Str lp) (Str hn) (Str rp)).
Proof.
  intros Hform. pose proof Hform as (nl & Hs & ? & ? & ? & ? & ?).
  assert (MState (String.length
                    (addr_prefix ba +:+ lp +:+ ":" +:+ hn +:+ ":" +:+ rp))
                 nl (captured ba lp hn rp) ∈ run local_pf_re (start s)) as Hin.
  { apply elem_of_run_local. exists ba, lp, hn, rp. simpl.
    done. }
  destruct (local s) as [d|e] eqn:Hl.
  - apply local_returns in Hl as (ba' & lp' & hn' & rp' & Hform' & ->).
    destruct (local_form_unique _ _ _ _ _ _ _ _ _ Hform Hform')
      as (-> & -> & -> & ->). done.
  - unfold local in Hl. destruct (parse_outcome local_pf_re s)
      as [(st & _ & Hp) | [Hm _]]; [congruence|].
    unfold match_ in Hm. apply head_None in Hm. rewrite Hm in Hin.
    by apply elem_of_nil in Hin.
Qed.


Lemma dynamic_returns (s : string) (d : gmap string (value O)) :
  dynamic s = Return d →
  ∃ ba lp,
    dynamic_form s ba lp ∧ d = fields (of_arg ba) (Str lp) (Str "") (Str "").
Proof.
  unfold dynamic. destruct (parse_outcome dynamic_pf_re s)
    as [(st & Hm & ->) | [_ ->]]; [|done].
  intros [= <-]. apply head_Some_elem_of in Hm.
  apply elem_of_run_dynamic in Hm as (ba & lp & Hs & ? & ? & ? & Hg & _).
  exists ba, lp. split.
  - exists (rest st). done.
  - by apply groupdict_dynamic.
Qed.

Lemma dynamic_of_form (s : string) (ba : option string) (lp : string) :
  dynamic_form s ba lp →
  dynamic (O:=O) s = Return (fields (of_arg ba) (Str lp) (Str "") (Str "")).
Proof.
  intros Hform. pose proof Hform as (nl & Hs & ? & ? & ?).
  assert (MState (String.length (addr_prefix ba +:+ lp))
                 nl (captured ba lp "" "") ∈ run dynamic_pf_re (start s))
    as Hin.
  { apply elem_of_run_dynamic. exists ba, lp. simpl.
    done. }
  destruct (dynamic s) as [d|e] eqn:Hl.
  - apply dynamic_returns in Hl as (ba' & lp' & Hform' & ->).
    destruct (dynamic_form_unique _ _ _ _ _ Hform Hform') as (-> & ->). done.
  - unfold dynamic in Hl. destruct (parse_outcome dynamic_pf_re s)
      as [(st & _ & Hp) | [Hm _]]; [congruence|].
    unfold match_ in Hm. apply head_None in Hm. rewrite Hm in Hin.
    by apply elem_of_nil in Hin.
Qed.


Lemma dom_fields (a b c d : value O) :
  dom (fields a b c d) =
  ({[ "bound_address"; "local_port"; "hostname"; "remote_port" ]}
     : gset string).
Proof.
  unfold fields. rewrite !dom_insert_L, dom_singleton_L. set_solver.
Qed.

End parsers.
End ParserFacts.

(** * The claims about [BindingParser] *)

Module BindingClaims.
Import Py Re Eff BindingParser PFRuleCommand Spec.
Import StrFacts ReFacts BindingFacts ParserFacts.

Lemma lookup_fields {O} (a b c d : value O) :
  fields a b c d !! "bound_address" = Some a ∧
  fields a b c d !! "local_port" = Some b ∧
  fields a b c d !! "hostname" = Some c ∧
  fields a b c d !! "remote_port" = Some d.
Proof. unfold fields. by simplify_map_eq. Qed.

Lemma parse_binding_tags {O} (s : string) :
  parse_binding (O:=O) (Str "D") s = dynamic s ∧
  parse_binding (O:=O) (Str "L") s = local s ∧
  parse_binding (O:=O) (Str "R") s = remote s.
Proof. done. Qed.

(** C2.  Every binding string that the dynamic parser accepts yields a
    dictionary with exactly the four fields bound_address, local_port,
    hostname and remote_port, in which hostname and remote_port are present
    and are the empty string; and "127.0.0.1:9050" yields
    {bound_address: "127.0.0.1", local_port: "9050", hostname: "",
    remote_port: ""}. *)
Theorem dynamic_has_four_fields (O : Type) (s : string)
    (d : gmap string (value O)) :
  dynamic s = Return d →
  dom d = {[ "bound_address"; "local_port"; "hostname"; "remote_port" ]} ∧
  is_Some (d !! "bound_address") ∧
  is_Some (d !! "local_port") ∧
  d !! "hostname" = Some (Str "") ∧
  d !! "remote_port" = Some (Str "") ∧
  dynamic (O:=O) "127.0.0.1:9050" =
    Return (fields (Str "127.0.0.1") (Str "9050") (Str "") (Str "")).
Proof.
  intros (ba & lp & _ & ->)%dynamic_returns.
  destruct (lookup_fields (O:=O) (of_arg ba) (Str lp) (Str "") (Str ""))
    as (Ha & Hl & Hh & Hr).
  split; [apply dom_fields|]. rewrite Ha, Hl.
  repeat (split; [by eauto|]).
  apply (dynamic_of_form _ (Some "127.0.0.1") "9050").
  exists "". repeat split; auto. by left.
Qed.

Lemma dynamic_has_four_fields_witness :
  let d : gmap string (value unit) :=
    fields (Str "10.0.0.1") (Str "1080") (Str "") (Str "") in
  dynamic "10.0.0.1:1080" = Return d ∧
  dom d = {[ "bound_address"; "local_port"; "hostname"; "remote_port" ]} ∧
  is_Some (d !! "bound_address") ∧
  is_Some (d !! "local_port") ∧
  d !! "hostname" = Some (Str "") ∧
  d !! "remote_port" = Some (Str "") ∧
  dynamic (O:=unit) "127.0.0.1:9050" =
    Return (fields (Str "127.0.0.1") (Str "9050") (Str "") (Str "")).
Proof.
  intros d.
  assert (dynamic "10.0.0.1:1080" = Return d) as H by (vm_compute; reflexivity).
  split; [exact H|].
  exact (dynamic_has_four_fields unit "10.0.0.1:1080" d H).
Defined.

(** C3.  Remote binding parsing is local binding parsing: on every input
    the two return the same dictionary or raise the same [InvalidBinding],
    directly and through the parser registry; and "8080:example.com:80"
    yields {bound_address: None, local_port: "8080", hostname:
    "example.com", remote_port: "80"} under both. *)
Theorem remote_parses_as_local (O : Type) (s : string) :
  remote (O:=O) s = local s ∧
  parse_binding (O:=O) (Str "R") s = parse_binding (Str "L") s ∧
  ((∃ d, local (O:=O) s = Return d ∧ remote s = Return d) ∨
   (local (O:=O) s = Raise (InvalidBinding "Invalid binding format.") ∧
    remote (O:=O) s = Raise (InvalidBinding "Invalid binding format."))) ∧
  local (O:=O) "8080:example.com:80" =
    Return (fields None_ (Str "8080") (Str "example.com") (Str "80")) ∧
  remote (O:=O) "8080:example.com:80" =
    Return (fields None_ (Str "8080") (Str "example.com") (Str "80")).
Proof.
  assert (local (O:=O) "8080:example.com:80" =
          Return (fields None_ (Str "8080") (Str "example.com") (Str "80")))
    as Hex.
  { apply (local_of_form _ None "8080" "example.com" "80").
    exists "". repeat split; auto. by left. }
  split; [done|]. split; [done|]. split; [|done].
  unfold remote, local.
  destruct (parse_outcome (O:=O) local_pf_re s) as [(st & _ & H) | [_ H]].
  - left. eauto.
  - right. done.
Qed.

(** The examples of section 8 of the specification, and a few around
    them. *)
Example local_with_bound_address :
  local (O:=unit) "127.0.0.1:8080:example.com:80" =
    Return (fields (Str "127.0.0.1") (Str "8080") (Str "example.com")
                   (Str "80")).
Proof. vm_compute. reflexivity. Qed.

Example local_wrong_arity :
  local (O:=unit) "8080" = Raise (InvalidBinding "Invalid binding format.") ∧
  local (O:=unit) "1:2:example.com:80:90" =
    Raise (InvalidBinding "Invalid binding format.") ∧
  dynamic (O:=unit) "8080:example.com:80" =
    Raise (InvalidBinding "Invalid binding format.").
Proof. repeat split; vm_compute; reflexivity. Qed.

(** [$] lets one line feed follow the last port, and only one. *)
Example line_feed_is_tolerated :
  dynamic (O:=unit) ("9050" +:+ LF) =
    Return (fields None_ (Str "9050") (Str "") (Str "")) ∧
  local (O:=unit) ("8080:example.com:80" +:+ LF) =
    Return (fields None_ (Str "8080") (Str "example.com") (Str "80")) ∧
  dynamic (O:=unit) ("9050" +:+ LF +:+ LF) =
    Raise (InvalidBinding "Invalid binding format.").
Proof. repeat split; vm_compute; reflexivity. Qed.



(** The converse: a binding string that fits the grammar parses. *)
Lemma matched_binding_returns (O : Type) (pf_type s : string) :
  matches_grammar pf_type s →
  ∃ d, parse_binding (O:=O) (Str pf_type) s = Return d.
Proof.
  intros [[-> (ba & lp & Hf)] | [[-> | ->] (ba & lp & hn & rp & Hf)]].
  - eexists. by apply dynamic_of_form.
  - eexists. by apply local_of_form.
  - eexists. by apply local_of_form.
Qed.








End BindingClaims.

(** * The claims about [DetailCommand] *)

Module CommandClaims.
Import Py Eff DetailCommand Spec.

Ltac unfold_monad :=
  unfold mbind, M_bind, bind, mret, M_ret, ret, raise, lift in *.

Lemma isdigit_spec (t : string) :
  isdigit t = true ↔ t ≠ "" ∧ all_chars isdigit_char t = true.
Proof.
  unfold isdigit. rewrite andb_true_iff, negb_true_iff, String.eqb_neq. done.
Qed.

Lemma int_acc_app (acc : Z) (t u : string) :
  int_acc acc (t +:+ u) = int_acc (int_acc acc t) u.
Proof.
  revert acc. induction t as [|c t IH]; intros acc; [done|].
  rewrite StrFacts.app_cons. simpl. apply IH.
Qed.

(** [int] returns on the strings of decimal digits, reads them in decimal
    notation, and raises nothing but [ValueError]. *)
Lemma int_spec (t : string) :
  (t ≠ "" ∧ all_chars is_digit t = true ∧ int t = Return (int_acc 0 t)) ∨
  ((t = "" ∨ all_chars is_digit t = false) ∧
   ∃ msg, int t = Raise (ValueError msg)).
Proof.
  unfold int. destruct (String.eqb_spec t "") as [->|Hne]; simpl.
  - right. split; [by left|]. eauto.
  - destruct (all_chars is_digit t) eqn:Hd; [left; done|].
    right. split; [by right|]. eauto.
Qed.

(** A list of decimal numerals: what [int] returns on. *)
Lemma comprehension_int (l : list string) :
  (Forall (λ t, t ≠ "" ∧ all_chars is_digit t = true) l ∧
   comprehension int l = Return (int_acc 0 <$> l)) ∨
  (¬ Forall (λ t, t ≠ "" ∧ all_chars is_digit t = true) l ∧
   ∃ msg, comprehension int l = Raise (ValueError msg)).
Proof.
  induction l as [|t l IH]; [left; split; [constructor|done]|].
  simpl. destruct (int_spec t) as [(Hne & Hd & ->) | [Hbad [msg ->]]].
  - destruct IH as [[Hl ->] | [Hl [msg ->]]].
    + left. split; [by constructor|done].
    + right. split; [|eauto]. intros H. apply Hl. by inversion H.
  - right. split; [|eauto]. intros H. inversion H as [|? ? [Hne Hd] _].
    destruct Hbad as [-> | Hbad]; congruence.
Qed.

Lemma decimal_tokens_filter (tokens : list string) :
  decimal_tokens tokens ↔
  Forall (λ t, t ≠ "" ∧ all_chars is_digit t = true)
         (filter (λ t, isdigit t = true) tokens).
Proof.
  unfold decimal_tokens. rewrite !Forall_forall. split.
  - intros H t [Ht Hin]%list_elem_of_filter. split; [|by apply H].
    by apply isdigit_spec in Ht as [? _].
  - intros H t Hin Ht. apply H. by apply list_elem_of_filter.
Qed.

(** [parse_ids_names] returns on the token lists whose digit tokens are
    decimal numerals, and raises [ValueError] on the others. *)
Lemma parse_ids_names_spec (tokens : list string) :
  (decimal_tokens tokens ∧
   parse_ids_names tokens =
     Return (int_acc 0 <$> filter (λ t, isdigit t = true) tokens, tokens)) ∨
  (¬ decimal_tokens tokens ∧
   ∃ msg, parse_ids_names tokens = Raise (ValueError msg)).
Proof.
  unfold parse_ids_names. rewrite decimal_tokens_filter.
  destruct (comprehension_int (filter (λ t, isdigit t = true) tokens))
    as [[H ->] | [H [msg ->]]]; [left|right]; eauto.
Qed.

Lemma superscript_not_decimal (before after : list string) :
  ¬ decimal_tokens (before ++ superscript_two :: after).
Proof.
  unfold decimal_tokens. rewrite Forall_app, Forall_cons.
  intros (_ & H & _). by specialize (H eq_refl).
Qed.

Section detail.
Context {St I : Type}.
Variable super_init : M St unit.
Variable storage_filter :
  model_class → (list bool → bool) → gmap string operand → M St (list I).
Variable create : Namespace.t → M St unit.
Variable update_instance : Namespace.t → I → M St unit.
Variable delete_instance : I → M St unit.

(** C1.  [take_action] dispatches in this order: the delete path when
    delete is allowed and the delete flag is set; otherwise the create path
    when create is allowed and there are no entry tokens; otherwise the
    update path when update is allowed and there are entry tokens; otherwise
    nothing runs.  A command that allows create only, called with entry
    tokens, runs nothing. *)
Theorem take_action_dispatches (self : command) (parsed_args : Namespace.t) :
  take_action storage_filter create update_instance delete_instance
              self parsed_args =
    match dispatch_rule (allowed_operations self)
                        (Namespace.delete parsed_args)
                        (Namespace.entry parsed_args) with
    | DeletePath => DetailCommand.delete storage_filter delete_instance
                                         self parsed_args
    | CreatePath => create parsed_args
    | UpdatePath => update storage_filter update_instance self parsed_args
    | NoOperation => mret tt
    end ∧
  ∀ m d e es h t b,
    take_action storage_filter create update_instance delete_instance
                (Command {[ "create" ]} m) (Namespace.Make d (e :: es) h t b)
    = mret tt.
Proof.
  split.
  - unfold take_action, dispatch_rule,
      is_allow_delete, is_allow_create, is_allow_update.
    destruct parsed_args as [d entry h t b]. simpl.
    destruct d, entry as [|e es]; simpl;
      repeat case_bool_decide; repeat case_decide; simpl;
      try reflexivity; exfalso; intuition congruence.
  - intros m d e es h t b.
    unfold take_action, is_allow_delete, is_allow_create, is_allow_update.
    simpl. repeat case_bool_decide; simpl; try reflexivity; set_solver.
Qed.

(** C5.  The code fails the claim on a token that [str.isdigit] accepts
    and [int] rejects.  A superscript two is such a token: for every storage
    and every token list that holds it, [get_objects] raises [ValueError]
    out of [parse_ids_names], with the state as it was, and the storage is
    not asked at all. *)
Theorem get_objects_superscript_digit (self : command)
    (before after : list string) (s : St) :
  isdigit superscript_two = true ∧
  (∃ msg, int superscript_two = Raise (ValueError msg)) ∧
  (∃ msg, parse_ids_names (before ++ superscript_two :: after) =
          Raise (ValueError msg)) ∧
  ∃ msg, get_objects storage_filter self
           (before ++ superscript_two :: after) s =
         (Raise (ValueError msg), s).
Proof.
  split; [done|]. split; [by eexists|].
  destruct (parse_ids_names_spec (before ++ superscript_two :: after))
    as [[H _] | [_ [msg Hp]]]; [by apply superscript_not_decimal in H|].
  split; [eauto|]. exists msg.
  unfold get_objects. unfold_monad. by rewrite Hp.
Qed.

(** What [parse_ids_names] or the storage raises, [get_objects] raises. *)
Lemma get_objects_propagates (self : command) (ids__names : list string)
    (s : St) (e : exn) :
  parse_ids_names ids__names = Raise e →
  get_objects storage_filter self ids__names s = (Raise e, s).
Proof.
  intros Hp. unfold get_objects. unfold_monad. by rewrite Hp.
Qed.

(** C6.  Once the base constructor has returned, constructing a command
    whose [allowed_operations] shares nothing with {delete, update, create}
    (the empty set in particular) fails with [AssertionError], and
    constructing one that shares an operation succeeds. *)
Theorem init_asserts_an_operation (self : command) (s s' : St) :
  super_init s = (Return tt, s') →
  (all_operations ∩ allowed_operations self = ∅ →
   __init__ super_init self s = (Raise AssertionError, s')) ∧
  (all_operations ∩ allowed_operations self ≠ ∅ →
   __init__ super_init self s = (Return tt, s')) ∧
  (allowed_operations self = ∅ →
   __init__ super_init self s = (Raise AssertionError, s')).
Proof.
  intros Hs. unfold __init__. unfold_monad. rewrite Hs.
  split; [|split].
  - intros He. by rewrite decide_True.
  - intros He. by rewrite decide_False.
  - intros He. rewrite decide_True; [done|]. rewrite He. set_solver.
Qed.

(** C7.  With no entry tokens, [update] and [delete] raise
    [ArgumentRequiredException] whatever the other attributes are, and leave
    the state as it was: the storage and the instance operations are not
    reached. *)
Theorem update_delete_require_entry (self : command)
    (parsed_args : Namespace.t) (s : St) :
  Namespace.entry parsed_args = [] →
  update storage_filter update_instance self parsed_args s =
    (Raise (ArgumentRequiredException "At least one ID or NAME are required."),
     s) ∧
  DetailCommand.delete storage_filter delete_instance self parsed_args s =
    (Raise (ArgumentRequiredException "At least one ID or NAME are required."),
     s).
Proof.
  intros He. unfold update, DetailCommand.delete. rewrite He. done.
Qed.

End detail.

Lemma init_asserts_an_operation_witness :
  let self := Command {[ "create" ]} PFRule in
  Eff.ret (St:=unit) tt tt = (Return tt, tt) ∧
  all_operations ∩ allowed_operations self ≠ ∅ ∧
  __init__ (Eff.ret tt) self tt = (Return tt, tt) ∧
  __init__ (Eff.ret tt) (Command ∅ PFRule) tt = (Raise AssertionError, tt).
Proof.
  intros self.
  assert (all_operations ∩ allowed_operations self ≠ ∅) as Hne.
  { intros He. assert ("create" ∈ (∅ : gset string)) as Hin.
    { rewrite <- He. unfold all_operations, self. simpl. set_solver. }
    set_solver. }
  split; [reflexivity|]. split; [exact Hne|]. split.
  - exact (proj1 (proj2 (init_asserts_an_operation (Eff.ret tt) self tt tt
                           eq_refl)) Hne).
  - exact (proj2 (proj2 (init_asserts_an_operation (Eff.ret tt)
                           (Command ∅ PFRule) tt tt eq_refl)) eq_refl).
Defined.

Lemma update_delete_require_entry_witness :
  let self := Command {[ "delete"; "update" ]} Host in
  let parsed_args := Namespace.Make true [] (Some "web1") (Some "L") None in
  let touched : M Store.store unit := Eff.raise (Exception_ "touched") in
  Namespace.entry parsed_args = [] ∧
  update Store.filter_ (λ _ _, touched) self parsed_args Store.two_hosts =
    (Raise (ArgumentRequiredException "At least one ID or NAME are required."),
     Store.two_hosts) ∧
  DetailCommand.delete Store.filter_ (λ _, touched) self parsed_args
                       Store.two_hosts =
    (Raise (ArgumentRequiredException "At least one ID or NAME are required."),
     Store.two_hosts).
Proof.
  intros self parsed_args touched.
  split; [reflexivity|].
  exact (update_delete_require_entry Store.filter_ (λ _ _, touched)
           (λ _, touched) self parsed_args Store.two_hosts eq_refl).
Defined.

End CommandClaims.

(** * The claims about [PFRuleCommand] *)

Module PFRuleClaims.
Import Py Eff BindingParser PFRuleCommand Spec.
Import ParserFacts BindingClaims CommandClaims.

(** Setting the attributes a dictionary lists overrides those and keeps
    the others. *)
Lemma setattrs_union {O} (o d : gmap string (value O)) :
  setattrs o d = d ∪ o.
Proof.
  unfold setattrs.
  apply (map_fold_weak_ind (λ r m, r = m ∪ o)).
  - by rewrite (left_id_L ∅ (∪)).
  - intros k v m r Hk ->. by rewrite insert_union_l.
Qed.

Lemma parse_binding_returns {O} (t : value O) (b : string)
    (d : gmap string (value O)) :
  parse_binding t b = Return d →
  ∃ ba lp hn rp, d = fields ba lp hn rp.
Proof.
  unfold parse_binding. destruct t as [|k|o]; [done| |done].
  unfold binding_parsers.
  destruct (decide (k = "D")) as [->|HD].
  { simplify_map_eq. intros (ba & lp & _ & ->)%dynamic_returns. eauto. }
  destruct (decide (k = "L")) as [->|HL].
  { simplify_map_eq. intros (ba & lp & hn & rp & _ & ->)%local_returns. eauto. }
  destruct (decide (k = "R")) as [->|HR].
  { simplify_map_eq. intros (ba & lp & hn & rp & _ & ->)%local_returns. eauto. }
  by simplify_map_eq.
Qed.

Section pfrule.
Context {St O : Type}.
Variable get_relation : model_class → option string → M St (value O).
Variable PFRule_new : gmap string (value O).

(** C8, amended.  On the create path with no type flag, serialisation
    produces no rule: it raises [ArgumentRequiredException] when the lookup
    of the host returns, and otherwise raises what that lookup raised, the
    lookup coming first. *)
Theorem create_without_type_fails (args : Namespace.t) (s : St) :
  Namespace.type args = None →
  serialize_args get_relation PFRule_new args None s =
    match get_relation Host (Namespace.host args) s with
    | (Return _, s') =>
        (Raise (ArgumentRequiredException "Type is required."), s')
    | (Raise e, s') => (Raise e, s')
    end ∧
  ∀ r s', serialize_args get_relation PFRule_new args None s ≠ (Return r, s').
Proof.
  intros Ht.
  assert (serialize_args get_relation PFRule_new args None s =
          match get_relation Host (Namespace.host args) s with
          | (Return _, s') =>
              (Raise (ArgumentRequiredException "Type is required."), s')
          | (Raise e, s') => (Raise e, s')
          end) as Heq.
  { unfold serialize_args. unfold_monad. rewrite Ht. simpl.
    by destruct (get_relation Host (Namespace.host args) s) as [[h|e] s1]. }
  split; [exact Heq|].
  intros r s'. rewrite Heq.
  by destruct (get_relation Host (Namespace.host args) s) as [[h|e] s1].
Qed.

(** What [serialize_args] computes for an existing instance. *)
Lemma serialize_update (args : Namespace.t) (inst : gmap string (value O))
    (s : St) :
  serialize_args get_relation PFRule_new args (Some inst) s =
    (match getattr inst "host" with
     | Raise e => Raise e
     | Return h =>
         match or_ (of_arg (Namespace.type args)) (getattr inst "pf_type") with
         | Raise e => Raise e
         | Return t =>
             let pfrule := <["host" := h]> (<["pf_type" := t]> inst) in
             match Namespace.binding args with
             | Some b =>
                 if negb (String.eqb b "") then
                   match parse_binding t b with
                   | Raise e => Raise e
                   | Return d => Return (d ∪ pfrule)
                   end
                 else Return pfrule
             | None => Return pfrule
             end
         end
     end, s).
Proof.
  unfold serialize_args. unfold_monad.
  destruct (getattr inst "host") as [h|e]; [|done].
  destruct (or_ _ _) as [t|e]; [|done]. simpl.
  destruct (Namespace.binding args) as [b|]; [|done].
  destruct (negb (String.eqb b "")); [|done].
  unfold getattr at 1. rewrite lookup_insert_ne by done.
  rewrite lookup_insert_eq.
  destruct (parse_binding t b) as [d|e]; [|done].
  by rewrite setattrs_union.
Qed.

(** C10.  When [serialize_args] is given an existing instance and returns
    a rule: the state is the one it started from and the rule is the same
    whatever [args.host] and [get_relation] are, its host is the host the
    instance had; with no type given its pf_type is the one the instance
    had; and with no binding given, or an empty one, the four fields that
    come from a binding are the ones the instance had. *)
Theorem update_keeps_what_is_not_given (args : Namespace.t)
    (inst r : gmap string (value O)) (s s' : St) :
  serialize_args get_relation PFRule_new args (Some inst) s = (Return r, s') →
  s' = s ∧
  is_Some (inst !! "host") ∧
  r !! "host" = inst !! "host" ∧
  (∀ get_relation' PFRule_new' host',
     serialize_args get_relation' PFRule_new'
       (Namespace.Make (Namespace.delete args) (Namespace.entry args) host'
                       (Namespace.type args) (Namespace.binding args))
       (Some inst) s = (Return r, s')) ∧
  (Namespace.type args = None → r !! "pf_type" = inst !! "pf_type") ∧
  (Namespace.binding args = None ∨ Namespace.binding args = Some "" →
   ∀ k, k ∈ ["bound_address"; "local_port"; "hostname"; "remote_port"] →
        r !! k = inst !! k).
Proof.
  intros Hret. pose proof Hret as Hrun.
  rewrite serialize_update in Hrun.
  unfold getattr, or_ in Hrun.
  destruct (inst !! "host") as [h|] eqn:Hh; [|done].
  split; [congruence|]. split; [eauto|].
  split; [|split; [|split]].
  - destruct (truthy (of_arg (Namespace.type args)));
      [|destruct (inst !! "pf_type") as [t0|]; [|done]];
      (destruct (Namespace.binding args) as [b|];
       [destruct (negb (String.eqb b ""));
        [match type of Hrun with
         | context [parse_binding ?t b] =>
             destruct (parse_binding t b) as [d|e] eqn:Hp; [|done];
             apply parse_binding_returns in Hp as (?&?&?&?&->)
         end|]|]);
      injection Hrun as <- <-;
      rewrite ?lookup_union_r by (unfold fields; by simplify_map_eq);
      by simplify_map_eq.
  - intros get_relation' PFRule_new' host'. exact Hret.
  - intros Ht. rewrite Ht in Hrun. simpl in Hrun.
    destruct (inst !! "pf_type") as [t0|] eqn:Ht0; [|done].
    destruct (Namespace.binding args) as [b|];
      [destruct (negb (String.eqb b ""));
       [destruct (parse_binding t0 b) as [d|e] eqn:Hp; [|done];
        apply parse_binding_returns in Hp as (?&?&?&?&->)|]|];
      injection Hrun as <- <-;
      rewrite ?lookup_union_r by (unfold fields; by simplify_map_eq);
      by simplify_map_eq.
  - intros Hb k Hk.
    assert (k ≠ "host" ∧ k ≠ "pf_type") as [? ?].
    { apply list_elem_of_In in Hk. simpl in Hk.
      destruct Hk as [<-|[<-|[<-|[<-|[]]]]]; done. }
    destruct (truthy (of_arg (Namespace.type args)));
      [|destruct (inst !! "pf_type") as [t0|]; [|done]];
      (destruct Hb as [Hb|Hb]; rewrite Hb in Hrun; simpl in Hrun;
       injection Hrun as <- <-; by simplify_map_eq).
Qed.

(** With a host on the instance, a type on the command line or on the
    instance, and no binding, the update path does return. *)
Lemma serialize_update_returns (args : Namespace.t)
    (inst : gmap string (value O)) (h t : value O) (s : St) :
  inst !! "host" = Some h →
  inst !! "pf_type" = Some t →
  Namespace.binding args = None →
  ∃ r, serialize_args get_relation PFRule_new args (Some inst) s =
       (Return r, s).
Proof.
  intros Hh Ht Hb. rewrite serialize_update. unfold getattr, or_.
  rewrite Hh, Ht, Hb. destruct (truthy _); eauto.
Qed.

End pfrule.

(** C8, as the specification states it, fails: with no type flag and a
    host that the storage does not hold (or no host at all), what is raised
    is the [DoesNotExistException] of the host lookup, which runs before the
    type is looked at. *)
Lemma missing_host_comes_first :
  let args := Namespace.Make false [] (Some "web9") None (Some "8080") in
  let no_host := Namespace.Make false [] None None (Some "8080") in
  Namespace.type args = None ∧
  serialize_args Store.get ∅ args None Store.two_hosts =
    (Raise (DoesNotExistException ""), Store.two_hosts) ∧
  serialize_args Store.get ∅ no_host None Store.nothing =
    (Raise (DoesNotExistException ""), Store.nothing) ∧
  ∀ msg, serialize_args Store.get ∅ args None Store.two_hosts ≠
         (Raise (ArgumentRequiredException msg), Store.two_hosts).
Proof.
  intros args no_host.
  assert (serialize_args Store.get ∅ args None Store.two_hosts =
          (Raise (DoesNotExistException ""), Store.two_hosts)) as H
    by (vm_compute; reflexivity).
  split; [reflexivity|]. split; [exact H|].
  split; [vm_compute; reflexivity|].
  intros msg. rewrite H. discriminate.
Qed.

Lemma create_without_type_fails_witness :
  let args := Namespace.Make false [] (Some "web1") None (Some "8080") in
  Namespace.type args = None ∧
  serialize_args Store.get ∅ args None Store.two_hosts =
    (Raise (ArgumentRequiredException "Type is required."), Store.two_hosts).
Proof.
  intros args. split; [reflexivity|].
  exact (proj1 (create_without_type_fails Store.get ∅ args Store.two_hosts
                  eq_refl)).
Defined.

Lemma update_keeps_what_is_not_given_witness :
  let web1 : value Store.entity := Obj (Store.Entity 7 "web1") in
  let inst : gmap string (value Store.entity) :=
    <["host" := web1]>
      (<["pf_type" := Str "L"]>
         (fields None_ (Str "8080") (Str "example.com") (Str "80"))) in
  let args := Namespace.Make false ["1"] (Some "db") None None in
  serialize_args Store.get ∅ args (Some inst) Store.two_hosts =
    (Return inst, Store.two_hosts) ∧
  inst !! "host" = Some web1 ∧
  inst !! "pf_type" = Some (Str "L") ∧
  inst !! "hostname" = Some (Str "example.com") ∧
  (Store.two_hosts = Store.two_hosts ∧
   is_Some (inst !! "host") ∧
   inst !! "host" = inst !! "host" ∧
   (∀ get_relation' PFRule_new' host',
      serialize_args get_relation' PFRule_new'
        (Namespace.Make (Namespace.delete args) (Namespace.entry args) host'
                        (Namespace.type args) (Namespace.binding args))
        (Some inst) Store.two_hosts = (Return inst, Store.two_hosts)) ∧
   (Namespace.type args = None → inst !! "pf_type" = inst !! "pf_type") ∧
   (Namespace.binding args = None ∨ Namespace.binding args = Some "" →
    ∀ k, k ∈ ["bound_address"; "local_port"; "hostname"; "remote_port"] →
         inst !! k = inst !! k)).
Proof.
  intros web1 inst args.
  assert (serialize_args Store.get ∅ args (Some inst) Store.two_hosts =
          (Return inst, Store.two_hosts)) as H by (vm_compute; reflexivity).
  split; [exact H|].
  split; [vm_compute; reflexivity|].
  split; [vm_compute; reflexivity|].
  split; [vm_compute; reflexivity|].
  exact (update_keeps_what_is_not_given Store.get ∅ args inst inst
           Store.two_hosts Store.two_hosts H).
Defined.

End PFRuleClaims.

(** * More about [BindingParser] *)

Module BindingExtras.
Import Py Re Eff BindingParser PFRuleCommand Spec.
Import StrFacts ReFacts BindingFacts ParserFacts BindingClaims.

Lemma colons_app (a b : string) : colons (a +:+ b) = (colons a + colons b)%nat.
Proof.
  induction a as [|c a IH]; [done|].
  rewrite app_cons. simpl. rewrite IH. lia.
Qed.

Lemma colons_none (p : ascii → bool) (s : string) :
  p ":"%char = false → all_chars p s = true → colons s = 0%nat.
Proof.
  intros Hp. induction s as [|c s IH]; [done|]. simpl.
  intros [Hc Hs]%andb_true_iff. rewrite (IH Hs).
  destruct (Ascii.eqb_spec c ":") as [->|_]; [congruence|done].
Qed.

Lemma colons_name (s : string) : name_text s → colons s = 0%nat.
Proof. intros [_ H]. by apply (colons_none (in_cset word_or_dot)). Qed.

Lemma colons_port (s : string) : port_text s → colons s = 0%nat.
Proof. intros H. by apply colons_name, port_is_name. Qed.

Lemma colons_line_end (s : string) : line_end s → colons s = 0%nat.
Proof. by intros [-> | ->]. Qed.

Lemma colons_addr_prefix (ba : option string) :
  addr_ok ba → colons (addr_prefix ba) = match ba with Some _ => 1%nat | None => 0%nat end.
Proof.
  destruct ba as [a|]; [|done]. simpl. intros Ha.
  by rewrite colons_app, (colons_name a Ha).
Qed.

Lemma local_form_colons (s : string) (ba : option string) (lp hn rp : string) :
  local_form s ba lp hn rp → colons s = match ba with Some _ => 3%nat | None => 2%nat end.
Proof.
  intros (nl & -> & Hba & Hlp & Hhn & Hrp & Hnl).
  rewrite !colons_app, (colons_addr_prefix ba Hba), (colons_port lp Hlp),
    (colons_name hn Hhn), (colons_port rp Hrp), (colons_line_end nl Hnl).
  by destruct ba.
Qed.

Lemma dynamic_form_colons (s : string) (ba : option string) (lp : string) :
  dynamic_form s ba lp → colons s = match ba with Some _ => 1%nat | None => 0%nat end.
Proof.
  intros (nl & -> & Hba & Hlp & Hnl).
  rewrite !colons_app, (colons_addr_prefix ba Hba), (colons_port lp Hlp),
    (colons_line_end nl Hnl).
  destruct ba; lia.
Qed.

Lemma fields_inj {O} (a b c d a' b' c' d' : value O) :
  fields a b c d = fields a' b' c' d' → a = a' ∧ b = b' ∧ c = c' ∧ d = d'.
Proof.
  intros Heq.
  destruct (lookup_fields a b c d) as (Ha & Hb & Hc & Hd).
  destruct (lookup_fields a' b' c' d') as (Ha' & Hb' & Hc' & Hd').
  rewrite Heq in Ha, Hb, Hc, Hd. repeat split; congruence.
Qed.

Lemma of_arg_inj {O} (x y : option string) :
  of_arg (O:=O) x = of_arg y → x = y.
Proof. destruct x, y; simpl; congruence. Qed.

Lemma parse_binding_cases {O} (t s : string) (d : gmap string (value O)) :
  parse_binding (Str t) s = Return d →
  (t = "D" ∧ dynamic s = Return d) ∨
  ((t = "L" ∨ t = "R") ∧ local s = Return d).
Proof.
  unfold parse_binding, binding_parsers.
  destruct (decide (t = "D")) as [->|HD]; [simplify_map_eq; auto|].
  destruct (decide (t = "L")) as [->|HL]; [simplify_map_eq; auto|].
  destruct (decide (t = "R")) as [->|HR]; [simplify_map_eq; auto|].
  by simplify_map_eq.
Qed.

Lemma parse_raises_invalid {O} (regexp : regex) (s : string) (e : exn) :
  _parse (O:=O) regexp s = Raise e →
  e = InvalidBinding "Invalid binding format.".
Proof.
  destruct (parse_outcome (O:=O) regexp s) as [(st & _ & ->) | [_ ->]];
    congruence.
Qed.



(** X3.  No binding string is accepted both as a local (or remote) binding
    and as a dynamic one: on every input at least one of the two parsers
    raises [InvalidBinding]. *)
Theorem no_binding_is_both (O : Type) (s : string) :
  local (O:=O) s = Raise (InvalidBinding "Invalid binding format.") ∨
  dynamic (O:=O) s = Raise (InvalidBinding "Invalid binding format.").
Proof.
  destruct (local (O:=O) s) as [d|e] eqn:Hl.
  - destruct (dynamic (O:=O) s) as [d'|e'] eqn:Hd.
    + apply local_returns in Hl as (ba & lp & hn & rp & Hf & _).
      apply dynamic_returns in Hd as (ba' & lp' & Hf' & _).
      apply local_form_colons in Hf. apply dynamic_form_colons in Hf'.
      destruct ba, ba'; lia.
    + right. by rewrite (parse_raises_invalid _ _ _ Hd).
  - left. by rewrite (parse_raises_invalid _ _ _ Hl).
Qed.

(** X4.  An accepted local (or remote) binding string holds two colons when
    it has no bound address and three when it has one, so a bound address
    never holds a colon. *)
Theorem local_counts_colons (O : Type) (s : string)
    (d : gmap string (value O)) :
  local s = Return d →
  (d !! "bound_address" = Some None_ ∧ colons s = 2%nat) ∨
  (∃ a, d !! "bound_address" = Some (Str a) ∧ colons a = 0%nat ∧
        colons s = 3%nat).
Proof.
  intros (ba & lp & hn & rp & Hf & ->)%local_returns.
  destruct (lookup_fields (O:=O) (of_arg ba) (Str lp) (Str hn) (Str rp))
    as (Ha & _).
  pose proof (local_form_colons _ _ _ _ _ Hf) as Hc.
  destruct Hf as (nl & _ & Hba & _).
  destruct ba as [a|]; [right|left]; simpl in *.
  - exists a. split; [done|]. split; [by apply colons_name|done].
  - done.
Qed.

Lemma local_counts_colons_witness :
  let d : gmap string (value unit) :=
    fields (Str "127.0.0.1") (Str "8080") (Str "example.com") (Str "80") in
  local "127.0.0.1:8080:example.com:80" = Return d ∧
  ((d !! "bound_address" = Some None_ ∧
    colons "127.0.0.1:8080:example.com:80" = 2%nat) ∨
   (∃ a, d !! "bound_address" = Some (Str a) ∧ colons a = 0%nat ∧
         colons "127.0.0.1:8080:example.com:80" = 3%nat)).
Proof.
  intros d.
  assert (local "127.0.0.1:8080:example.com:80" = Return d) as H
    by (vm_compute; reflexivity).
  split; [exact H|].
  exact (local_counts_colons unit "127.0.0.1:8080:example.com:80" d H).
Defined.

Lemma up_to_line_feed (pre nl nl' : string) :
  line_end nl → line_end nl' →
  pre +:+ nl = pre +:+ nl' ∨
  pre +:+ nl = (pre +:+ nl') +:+ LF ∨
  pre +:+ nl' = (pre +:+ nl) +:+ LF.
Proof.
  intros [-> | ->] [-> | ->]; rewrite ?app_nil_r; auto.
Qed.

(** X5.  Under one forwarding type, two binding strings that parse to the
    same dictionary are the same string, or differ by a line feed at the
    end: nothing else of the input is lost. *)
Theorem parse_binding_loses_nothing (O : Type) (t s s' : string)
    (d : gmap string (value O)) :
  parse_binding (Str t) s = Return d →
  parse_binding (Str t) s' = Return d →
  s = s' ∨ s = s' +:+ LF ∨ s' = s +:+ LF.
Proof.
  intros [[Ht H] | [Ht H]]%parse_binding_cases
         [[Ht' H'] | [Ht' H']]%parse_binding_cases.
  - apply dynamic_returns in H as (ba & lp & (nl & -> & _ & _ & Hnl) & ->).
    apply dynamic_returns in H' as (ba' & lp' & (nl' & -> & _ & _ & Hnl') & Hd).
    apply fields_inj in Hd as (<-%of_arg_inj & [= <-] & _).
    rewrite <- !app_assoc. by apply up_to_line_feed.
  - subst t. destruct Ht' as [Ht' | Ht']; discriminate Ht'.
  - subst t. destruct Ht as [Ht | Ht]; discriminate Ht.
  - apply local_returns in H
      as (ba & lp & hn & rp & (nl & -> & _ & _ & _ & _ & Hnl) & ->).
    apply local_returns in H'
      as (ba' & lp' & hn' & rp' & (nl' & -> & _ & _ & _ & _ & Hnl') & Hd).
    apply fields_inj in Hd as (<-%of_arg_inj & [= <-] & [= <-] & [= <-]).
    rewrite <- !app_assoc. by apply up_to_line_feed.
Qed.

Lemma parse_binding_loses_nothing_witness :
  let d : gmap string (value unit) :=
    fields None_ (Str "8080") (Str "example.com") (Str "80") in
  let s := "8080:example.com:80" in
  parse_binding (Str "R") s = Return d ∧
  parse_binding (Str "R") (s +:+ LF) = Return d ∧
  (s = s +:+ LF ∨ s = (s +:+ LF) +:+ LF ∨ s +:+ LF = s +:+ LF).
Proof.
  intros d s.
  assert (parse_binding (Str "R") s = Return d) as H
    by (vm_compute; reflexivity).
  assert (parse_binding (Str "R") (s +:+ LF) = Return d) as H'
    by (vm_compute; reflexivity).
  split; [exact H|]. split; [exact H'|].
  exact (parse_binding_loses_nothing unit "R" s (s +:+ LF) d H H').
Defined.

(** X6.  What parses, parses to the same dictionary with a line feed added
    at the end, unless it ends in one already; and an accepted string holds
    no line feed anywhere else. *)
Theorem parse_binding_line_feed (O : Type) (t s : string)
    (d : gmap string (value O)) :
  parse_binding (Str t) s = Return d →
  ∃ s0, (s = s0 ∨ s = s0 +:+ LF) ∧
        all_chars (λ c, negb (Ascii.eqb c "010")) s0 = true ∧
        parse_binding (Str t) s0 = Return d ∧
        parse_binding (Str t) (s0 +:+ LF) = Return d.
Proof.
  assert (∀ u, name_text u →
               all_chars (λ c, negb (Ascii.eqb c "010")) u = true) as Hname.
  { intros u [_ Hu]. apply (all_chars_impl (in_cset word_or_dot)); [|done].
    intros c Hc. destruct (Ascii.eqb_spec c "010") as [->|_]; done. }
  assert (∀ ba, addr_ok ba →
                all_chars (λ c, negb (Ascii.eqb c "010")) (addr_prefix ba)
                = true) as Haddr.
  { intros [a|] Ha; [|done]. simpl. by rewrite all_chars_app, (Hname a Ha). }
  intros Hp. pose proof Hp as [[-> H] | [Ht H]]%parse_binding_cases.
  - apply dynamic_returns in H as (ba & lp & (nl & -> & Hba & Hlp & Hnl) & ->).
    exists (addr_prefix ba +:+ lp).
    split; [destruct Hnl as [-> | ->]; rewrite ?app_nil_r, ?app_assoc; auto|].
    split.
    { rewrite all_chars_app, (Haddr ba Hba).
      by rewrite (Hname lp (port_is_name _ Hlp)). }
    split; apply (dynamic_of_form (O:=O) _ ba lp).
    + exists "". split; [by rewrite ?app_nil_r|].
      split; [done|]. split; [done|]. by left.
    + exists LF. split; [by rewrite ?app_assoc|].
      split; [done|]. split; [done|]. by right.
  - apply local_returns in H
      as (ba & lp & hn & rp & (nl & -> & Hba & Hlp & Hhn & Hrp & Hnl) & ->).
    exists (addr_prefix ba +:+ lp +:+ ":" +:+ hn +:+ ":" +:+ rp).
    split; [destruct Hnl as [-> | ->]; rewrite ?app_nil_r, ?app_assoc; auto|].
    split.
    { rewrite !all_chars_app, (Haddr ba Hba),
        (Hname lp (port_is_name _ Hlp)), (Hname hn Hhn),
        (Hname rp (port_is_name _ Hrp)). done. }
    assert (∀ x, line_end x →
              parse_binding (O:=O) (Str t)
                (addr_prefix ba +:+ lp +:+ ":" +:+ hn +:+ ":" +:+ rp +:+ x)
              = Return (fields (of_arg ba) (Str lp) (Str hn) (Str rp))) as Hx.
    { intros x Hxe.
      assert (local (O:=O)
                (addr_prefix ba +:+ lp +:+ ":" +:+ hn +:+ ":" +:+ rp +:+ x)
              = Return (fields (of_arg ba) (Str lp) (Str hn) (Str rp))) as Hl.
      { apply local_of_form. exists x. done. }
      by destruct Ht as [-> | ->]. }
    split.
    + rewrite <- (Hx "") by (by left). by rewrite ?app_nil_r.
    + rewrite <- (Hx LF) by (by right). by rewrite ?app_assoc.
Qed.

Lemma parse_binding_line_feed_witness :
  let d : gmap string (value unit) :=
    fields None_ (Str "9050") (Str "") (Str "") in
  parse_binding (Str "D") ("9050" +:+ LF) = Return d ∧
  ∃ s0, ("9050" +:+ LF = s0 ∨ "9050" +:+ LF = s0 +:+ LF) ∧
        all_chars (λ c, negb (Ascii.eqb c "010")) s0 = true ∧
        parse_binding (Str "D") s0 = Return d ∧
        parse_binding (Str "D") (s0 +:+ LF) = Return d.
Proof.
  intros d.
  assert (parse_binding (Str "D") ("9050" +:+ LF) = Return d) as H
    by (vm_compute; reflexivity).
  split; [exact H|].
  exact (parse_binding_line_feed unit "D" ("9050" +:+ LF) d H).
Defined.

(** X7.  The forwarding types are the abbreviations D, L and R, exactly as
    written: for any other string (a lower-case letter, a full word) and
    for [None], [parse_binding] raises [KeyError] and never looks at the
    binding string. *)
Theorem parse_binding_unknown_type (O : Type) (t s : string) :
  t ∉ ["D"; "L"; "R"] →
  parse_binding (O:=O) (Str t) s = Raise (KeyError t) ∧
  ∃ k, parse_binding (O:=O) None_ s = Raise (KeyError k).
Proof.
  intros Ht. split; [|by eexists].
  unfold parse_binding, binding_parsers.
  assert (t ≠ "D" ∧ t ≠ "L" ∧ t ≠ "R") as (? & ? & ?).
  { repeat split; intros ->; apply Ht; set_solver. }
  by simplify_map_eq.
Qed.

Lemma parse_binding_unknown_type_witness :
("local" ∉ ["D"; "L"; "R"]) ∧
  parse_binding (O:=unit) (Str "local") "8080:example.com:80" =
    Raise (KeyError "local") ∧
  ∃ k, parse_binding (O:=unit) None_ "8080:example.com:80" =
       Raise (KeyError k).
Proof.
  assert ("local" ∉ ["D"; "L"; "R"]) as H.
  { intros Hin. apply list_elem_of_In in Hin. simpl in Hin.
    destruct Hin as [Hin|[Hin|[Hin|[]]]]; discriminate Hin. }
  split; [exact H|].
  exact (parse_binding_unknown_type unit "local" "8080:example.com:80" H).
Defined.

End BindingExtras.

(** * More about [DetailCommand] *)

Module CommandExtras.
Import Py Eff DetailCommand Spec CommandClaims.



Lemma for_each_app {St A} (l1 l2 : list A) (body : A → M St unit) (s : St) :
  for_each (l1 ++ l2) body s =
  match for_each l1 body s with
  | (Return _, s1) => for_each l2 body s1
  | (Raise e, s1) => (Raise e, s1)
  end.
Proof.
  revert s. induction l1 as [|x l1 IH]; intros s; [done|].
  simpl. unfold bind. destruct (body x s) as [[[]|e] s1]; [apply IH|done].
Qed.

(** The loop stops where the body first raises. *)
Lemma for_each_stops {St A} (l1 l2 : list A) (x : A) (body : A → M St unit)
    (s s1 s2 : St) (e : exn) :
  for_each l1 body s = (Return tt, s1) →
  body x s1 = (Raise e, s2) →
  for_each (l1 ++ x :: l2) body s = (Raise e, s2).
Proof.
  intros H1 Hx. rewrite for_each_app, H1. simpl. unfold bind. by rewrite Hx.
Qed.


Section detail.
Context {St I : Type}.
Variable storage_filter :
  model_class → (list bool → bool) → gmap string operand → M St (list I).
Variable create : Namespace.t → M St unit.
Variable update_instance : Namespace.t → I → M St unit.
Variable delete_instance : I → M St unit.


(** X9.  [delete] takes the instances in the order the lookup gave them and
    stops at the first one whose deletion raises: that error is the outcome,
    the instances before it stay deleted and the ones after it are not
    tried. *)
Theorem delete_stops_at_first_failure (self : command)
    (parsed_args : Namespace.t) (before after : list I) (x : I)
    (s s0 s1 s2 : St) (e : exn) :
  Namespace.entry parsed_args ≠ [] →
  get_objects storage_filter self (Namespace.entry parsed_args) s =
    (Return (before ++ x :: after), s0) →
  for_each before delete_instance s0 = (Return tt, s1) →
  delete_instance x s1 = (Raise e, s2) →
  DetailCommand.delete storage_filter delete_instance self parsed_args s =
    (Raise e, s2).
Proof.
  intros Hne Hget Hbefore Hx. unfold DetailCommand.delete.
  destruct (Namespace.entry parsed_args) as [|t ts] eqn:He; [done|].
  simpl. unfold_monad. rewrite Hget.
  by apply for_each_stops with (s1 := s1).
Qed.

(** X10.  [update] does the same: it updates the instances in the order
    the lookup gave them and stops at the first update that raises. *)
Theorem update_stops_at_first_failure (self : command)
    (parsed_args : Namespace.t) (before after : list I) (x : I)
    (s s0 s1 s2 : St) (e : exn) :
  Namespace.entry parsed_args ≠ [] →
  get_objects storage_filter self (Namespace.entry parsed_args) s =
    (Return (before ++ x :: after), s0) →
  for_each before (update_instance parsed_args) s0 = (Return tt, s1) →
  update_instance parsed_args x s1 = (Raise e, s2) →
  update storage_filter update_instance self parsed_args s = (Raise e, s2).
Proof.
  intros Hne Hget Hbefore Hx. unfold update.
  destruct (Namespace.entry parsed_args) as [|t ts] eqn:He; [done|].
  simpl. unfold_monad. rewrite Hget.
  by apply (for_each_stops before after x (update_instance parsed_args)
              s0 s1 s2).
Qed.

(** X11.  When the lookup raises (as it does for tokens that match
    nothing), [update] and [delete] raise the same error from the same
    state, and no instance is updated or deleted. *)
Theorem failed_lookup_stops_update_and_delete (self : command)
    (parsed_args : Namespace.t) (s s' : St) (e : exn) :
  Namespace.entry parsed_args ≠ [] →
  get_objects storage_filter self (Namespace.entry parsed_args) s =
    (Raise e, s') →
  update storage_filter update_instance self parsed_args s = (Raise e, s') ∧
  DetailCommand.delete storage_filter delete_instance self parsed_args s =
    (Raise e, s').
Proof.
  intros Hne Hget. unfold update, DetailCommand.delete.
  destruct (Namespace.entry parsed_args) as [|t ts] eqn:He; [done|].
  simpl. unfold_monad. by rewrite Hget.
Qed.

(** X12.  The delete flag comes first: on a command that allows delete,
    [take_action] with the flag set and no entry tokens raises
    [ArgumentRequiredException] and creates nothing, also when the command
    allows create. *)
Theorem delete_flag_needs_entries (self : command)
    (parsed_args : Namespace.t) (s : St) :
  "delete" ∈ allowed_operations self →
  Namespace.delete parsed_args = true →
  Namespace.entry parsed_args = [] →
  take_action storage_filter create update_instance delete_instance
              self parsed_args s =
    (Raise (ArgumentRequiredException "At least one ID or NAME are required."),
     s).
Proof.
  intros Hd Hflag He. unfold take_action, is_allow_delete.
  rewrite bool_decide_eq_true_2 by done. rewrite Hflag. simpl.
  unfold DetailCommand.delete. by rewrite He.
Qed.

(** X13.  [take_action] leaves alone what its branch does not need.  With
    entry tokens it does not depend on [create]; with no entry tokens and
    the delete flag off it depends neither on the storage nor on the
    instance operations; and on a command that does not allow delete it
    does not depend on [delete_instance], whatever the delete flag is: it
    never deletes. *)
Theorem take_action_leaves_alone (self : command) (d : bool)
    (t : string) (ts : list string) (h ty b : option string) :
  (∀ create',
     take_action storage_filter create update_instance delete_instance
                 self (Namespace.Make d (t :: ts) h ty b) =
     take_action storage_filter create' update_instance delete_instance
                 self (Namespace.Make d (t :: ts) h ty b)) ∧
  (∀ (storage_filter' : model_class → (list bool → bool) →
                        gmap string operand → M St (list I))
     (update_instance' : Namespace.t → I → M St unit)
     (delete_instance' : I → M St unit),
     take_action storage_filter create update_instance delete_instance
                 self (Namespace.Make false [] h ty b) =
     take_action storage_filter' create update_instance' delete_instance'
                 self (Namespace.Make false [] h ty b)) ∧
  ("delete" ∉ allowed_operations self →
   ∀ (parsed_args : Namespace.t) (delete_instance' : I → M St unit),
     take_action storage_filter create update_instance delete_instance
                 self parsed_args =
     take_action storage_filter create update_instance delete_instance'
                 self parsed_args).
Proof.
  split; [|split].
  - intros create'. unfold take_action. simpl.
    rewrite !andb_false_r. done.
  - intros sf' ui' di'. unfold take_action. simpl.
    rewrite !andb_false_r, !andb_true_r. reflexivity.
  - intros Hd parsed_args di'. unfold take_action, is_allow_delete.
    rewrite bool_decide_eq_false_2 by exact Hd. reflexivity.
Qed.

(** X14.  The arguments [get_parser] adds to a base parser that has none of
    them: the delete flag exactly when delete is allowed, the entry list
    exactly when delete or update is, the interactive flag and the label
    exactly when create or update is; so the delete flag never comes without
    the entry list, and a command that allows create only gets no entry
    list. *)
Theorem get_parser_offers (self : command) (base : list string) :
  (∀ a, a ∈ ["delete"; "interactive"; "label"; "entry"] → a ∉ base) →
  ("delete" ∈ get_parser self base ↔ "delete" ∈ allowed_operations self) ∧
  ("entry" ∈ get_parser self base ↔
   "delete" ∈ allowed_operations self ∨ "update" ∈ allowed_operations self) ∧
  ("interactive" ∈ get_parser self base ↔
   "create" ∈ allowed_operations self ∨ "update" ∈ allowed_operations self) ∧
  ("label" ∈ get_parser self base ↔
   "create" ∈ allowed_operations self ∨ "update" ∈ allowed_operations self) ∧
  ("delete" ∈ get_parser self base → "entry" ∈ get_parser self base) ∧
  (∀ a, a ∈ base → a ∈ get_parser self base).
Proof.
  intros Hbase.
  assert (("delete" ∉ base) ∧ ("interactive" ∉ base) ∧ ("label" ∉ base) ∧
          ("entry" ∉ base)) as (Hb1 & Hb2 & Hb3 & Hb4).
  { repeat split; apply Hbase; set_solver. }
  assert (∀ (x : string) (l : list string),
            x ∈ base ++ l ↔ x ∈ base ∨ x ∈ l) as Happ
    by (intros; apply elem_of_app).
  unfold get_parser, is_allow_delete, is_allow_create, is_allow_update.
  repeat case_bool_decide; simpl;
    rewrite ?Happ, ?elem_of_cons, ?elem_of_nil;
    (repeat split; try (intros a ?; rewrite Happ; by left);
     intuition (discriminate || done)).
Qed.

End detail.


Lemma delete_stops_at_first_failure_witness :
  let self := Command all_operations Host in
  let parsed_args := Namespace.Make true ["3"; "web1"] None None None in
  let db := Store.Entity 3 "db" in
  let web1 := Store.Entity 7 "web1" in
  Namespace.entry parsed_args ≠ [] ∧
  get_objects Store.filter_ self (Namespace.entry parsed_args) Store.two_hosts
    = (Return ([] ++ db :: [web1]), Store.two_hosts) ∧
  for_each [] (Store.drop_unless 3) Store.two_hosts
    = (Return tt, Store.two_hosts) ∧
  Store.drop_unless 3 db Store.two_hosts
    = (Raise (Exception_ "locked"), Store.two_hosts) ∧
  DetailCommand.delete Store.filter_ (Store.drop_unless 3) self parsed_args
                       Store.two_hosts
    = (Raise (Exception_ "locked"), Store.two_hosts).
Proof.
  intros self parsed_args db web1.
  assert (Namespace.entry parsed_args ≠ []) as H1 by discriminate.
  assert (get_objects Store.filter_ self (Namespace.entry parsed_args)
            Store.two_hosts
          = (Return ([] ++ db :: [web1]), Store.two_hosts)) as H2
    by (vm_compute; reflexivity).
  assert (for_each [] (Store.drop_unless 3) Store.two_hosts
          = (Return tt, Store.two_hosts)) as H3 by reflexivity.
  assert (Store.drop_unless 3 db Store.two_hosts
          = (Raise (Exception_ "locked"), Store.two_hosts)) as H4
    by reflexivity.
  repeat (split; [assumption|]).
  exact (delete_stops_at_first_failure Store.filter_ (Store.drop_unless 3)
           self parsed_args [] [web1] db Store.two_hosts Store.two_hosts
           Store.two_hosts Store.two_hosts _ H1 H2 H3 H4).
Defined.

Lemma update_stops_at_first_failure_witness :
  let self := Command all_operations Host in
  let parsed_args := Namespace.Make false ["3"; "web1"] None None None in
  let db := Store.Entity 3 "db" in
  let web1 := Store.Entity 7 "web1" in
  let touch : Namespace.t → Store.entity → M Store.store unit :=
    λ _, Store.drop_unless 3 in
  Namespace.entry parsed_args ≠ [] ∧
  get_objects Store.filter_ self (Namespace.entry parsed_args) Store.two_hosts
    = (Return ([] ++ db :: [web1]), Store.two_hosts) ∧
  for_each [] (touch parsed_args) Store.two_hosts
    = (Return tt, Store.two_hosts) ∧
  touch parsed_args db Store.two_hosts
    = (Raise (Exception_ "locked"), Store.two_hosts) ∧
  update Store.filter_ touch self parsed_args Store.two_hosts
    = (Raise (Exception_ "locked"), Store.two_hosts).
Proof.
  intros self parsed_args db web1 touch.
  assert (Namespace.entry parsed_args ≠ []) as H1 by discriminate.
  assert (get_objects Store.filter_ self (Namespace.entry parsed_args)
            Store.two_hosts
          = (Return ([] ++ db :: [web1]), Store.two_hosts)) as H2
    by (vm_compute; reflexivity).
  assert (for_each [] (touch parsed_args) Store.two_hosts
          = (Return tt, Store.two_hosts)) as H3 by reflexivity.
  assert (touch parsed_args db Store.two_hosts
          = (Raise (Exception_ "locked"), Store.two_hosts)) as H4
    by reflexivity.
  repeat (split; [assumption|]).
  exact (update_stops_at_first_failure Store.filter_ touch
           self parsed_args [] [web1] db Store.two_hosts Store.two_hosts
           Store.two_hosts Store.two_hosts _ H1 H2 H3 H4).
Defined.

Lemma failed_lookup_stops_update_and_delete_witness :
  let self := Command all_operations Host in
  let parsed_args := Namespace.Make false ["nope"; "12"] None None None in
  let touch : Namespace.t → Store.entity → M Store.store unit :=
    λ _, Store.drop_unless 3 in
  let e := DoesNotExistException "There aren't any instance." in
  Namespace.entry parsed_args ≠ [] ∧
  get_objects Store.filter_ self (Namespace.entry parsed_args) Store.two_hosts
    = (Raise e, Store.two_hosts) ∧
  update Store.filter_ touch self parsed_args Store.two_hosts
    = (Raise e, Store.two_hosts) ∧
  DetailCommand.delete Store.filter_ (Store.drop_unless 3) self parsed_args
                       Store.two_hosts
    = (Raise e, Store.two_hosts).
Proof.
  intros self parsed_args touch e.
  assert (Namespace.entry parsed_args ≠ []) as H1 by discriminate.
  assert (get_objects Store.filter_ self (Namespace.entry parsed_args)
            Store.two_hosts = (Raise e, Store.two_hosts)) as H2
    by (vm_compute; reflexivity).
  split; [exact H1|]. split; [exact H2|].
  exact (failed_lookup_stops_update_and_delete Store.filter_ touch
           (Store.drop_unless 3) self parsed_args Store.two_hosts
           Store.two_hosts e H1 H2).
Defined.

Lemma delete_flag_needs_entries_witness :
  let self := Command all_operations Host in
  let parsed_args := Namespace.Make true [] None None None in
  let made : Namespace.t → M Store.store unit :=
    λ _, Eff.raise (Exception_ "created") in
  let touch : Namespace.t → Store.entity → M Store.store unit :=
    λ _, Store.drop_unless 3 in
  "delete" ∈ allowed_operations self ∧
  "create" ∈ allowed_operations self ∧
  take_action Store.filter_ made touch (Store.drop_unless 3)
              self parsed_args Store.two_hosts =
    (Raise (ArgumentRequiredException "At least one ID or NAME are required."),
     Store.two_hosts).
Proof.
  intros self parsed_args made touch.
  assert ("delete" ∈ allowed_operations self) as H1
    by (unfold self, all_operations; simpl; set_solver).
  split; [exact H1|].
  split; [unfold self, all_operations; simpl; set_solver|].
  exact (delete_flag_needs_entries Store.filter_ made touch
           (Store.drop_unless 3) self parsed_args Store.two_hosts
           H1 eq_refl eq_refl).
Defined.

Lemma get_parser_offers_witness :
  let self := Command {[ "create" ]} Host in
  let base := ["verbose"] in
  (∀ a, a ∈ ["delete"; "interactive"; "label"; "entry"] → a ∉ base) ∧
  get_parser self base = ["verbose"; "interactive"; "label"] ∧
  ("entry" ∈ get_parser self base ↔
   "delete" ∈ allowed_operations self ∨ "update" ∈ allowed_operations self).
Proof.
  intros self base.
  assert (∀ a, a ∈ ["delete"; "interactive"; "label"; "entry"] → a ∉ base)
    as H.
  { intros a Ha Hb. apply list_elem_of_singleton in Hb. subst a.
    apply list_elem_of_In in Ha. simpl in Ha.
    destruct Ha as [Ha|[Ha|[Ha|[Ha|[]]]]]; discriminate Ha. }
  split; [exact H|]. split; [vm_compute; reflexivity|].
  exact (proj1 (proj2 (get_parser_offers self base H))).
Defined.

End CommandExtras.

(** * More about [PFRuleCommand] *)

Module PFRuleExtras.
Import Py Eff BindingParser PFRuleCommand Spec.
Import ParserFacts BindingClaims CommandClaims PFRuleClaims BindingExtras.

Ltac in_list := apply list_elem_of_In; simpl; tauto.

Ltac notin_list :=
  let H := fresh in
  intros H; apply list_elem_of_In in H; simpl in H;
  first [ intuition discriminate
        | match goal with
          | Hk : _ ∉ _ |- _ => apply Hk; apply list_elem_of_In; simpl; tauto
          end ].

Lemma parse_binding_raises {O} (t : value O) (b : string) (e : exn) :
  parse_binding t b = Raise e →
  (∃ k, e = KeyError k) ∨ e = InvalidBinding "Invalid binding format.".
Proof.
  unfold parse_binding. destruct t as [|k|o]; [intros [= <-]; eauto| |
    intros [= <-]; eauto].
  destruct (binding_parsers !! k) as [parser|] eqn:Hk;
    [|intros [= <-]; eauto].
  intros He. right. unfold binding_parsers in Hk.
  destruct (decide (k = "D")) as [->|HD];
    [simplify_map_eq; by eapply parse_raises_invalid|].
  destruct (decide (k = "L")) as [->|HL];
    [simplify_map_eq; by eapply parse_raises_invalid|].
  destruct (decide (k = "R")) as [->|HR];
    [simplify_map_eq; by eapply parse_raises_invalid|].
  by simplify_map_eq.
Qed.

Lemma parse_binding_known {O} (t : value O) (b : string)
    (d : gmap string (value O)) :
  parse_binding t b = Return d →
  ∃ k, t = Str k ∧ k ∈ ["D"; "L"; "R"] ∧ b ≠ "".
Proof.
  destruct t as [|k|o]; [done| |done]. intros Hp. exists k. split; [done|].
  assert (b ≠ "") as Hb.
  { intros ->. apply parse_binding_cases in Hp as [[_ H] | [_ H]];
      vm_compute in H; discriminate H. }
  split; [|done].
  apply parse_binding_cases in Hp as [[-> _] | [[-> | ->] _]]; in_list.
Qed.


Lemma fields_no_other_key {O} (a b c d : value O) (k : string) :
  k ∉ ["bound_address"; "local_port"; "hostname"; "remote_port"] →
  fields a b c d !! k = None.
Proof.
  intros Hk. unfold fields.
  assert (k ≠ "bound_address" ∧ k ≠ "local_port" ∧ k ≠ "hostname" ∧
          k ≠ "remote_port") as (? & ? & ? & ?).
  { repeat split; intros ->; apply Hk; in_list. }
  by simplify_map_eq.
Qed.

Section pfrule.
Context {St O : Type}.
Variable get_relation : model_class → option string → M St (value O).
Variable PFRule_new : gmap string (value O).

(** What [serialize_args] computes when there is no instance. *)
Lemma serialize_create (args : Namespace.t) (s : St) :
  serialize_args get_relation PFRule_new args None s =
    match get_relation Host (Namespace.host args) s with
    | (Raise e, s1) => (Raise e, s1)
    | (Return h, s1) =>
        (if truthy (of_arg (O:=O) (Namespace.type args)) then
           let t := of_arg (Namespace.type args) in
           let pfrule := <["host" := h]> (<["pf_type" := t]> PFRule_new) in
           match Namespace.binding args with
           | Some b =>
               if negb (String.eqb b "") then
                 match parse_binding t b with
                 | Raise e => Raise e
                 | Return d => Return (d ∪ pfrule)
                 end
               else Return pfrule
           | None => Return pfrule
           end
         else Raise (ArgumentRequiredException "Type is required."), s1)
    end.
Proof.
  unfold serialize_args. unfold_monad.
  destruct (get_relation Host (Namespace.host args) s) as [[h|e] s1]; [|done].
  unfold or_.
  destruct (truthy (of_arg (Namespace.type args))) eqn:Ht; simpl; [|done].
  destruct (Namespace.binding args) as [b|]; [|done].
  destruct (negb (String.eqb b "")); [|done].
  unfold getattr at 1. rewrite lookup_insert_ne by done.
  rewrite lookup_insert_eq.
  destruct (parse_binding _ b) as [d|e]; [|done].
  by rewrite setattrs_union.
Qed.

(** What a write does to the object written. *)
Lemma attrs_insert (h : gmap positive (gmap string (value O)))
    (l : positive) (o : gmap string (value O)) :
  attrs (<[l := o]> h) l = o.
Proof. unfold attrs. by rewrite lookup_insert_eq. Qed.

(** What [serialize_args_at] computes for an existing instance. *)
Lemma serialize_update_at (args : Namespace.t) (l : positive)
    (inst : gmap string (value O)) (h : gmap positive (gmap string (value O)))
    (s : St) :
  h !! l = Some inst →
  serialize_args_at get_relation PFRule_new args (Some l) (s, h) =
    match getattr inst "host" with
    | Raise e => (Raise e, (s, h))
    | Return host =>
        match or_ (of_arg (Namespace.type args)) (getattr inst "pf_type") with
        | Raise e => (Raise e, (s, h))
        | Return t =>
            let pfrule := <["host" := host]> (<["pf_type" := t]> inst) in
            match Namespace.binding args with
            | Some b =>
                if negb (String.eqb b "") then
                  match parse_binding t b with
                  | Raise e => (Raise e, (s, <[l := pfrule]> h))
                  | Return d => (Return l, (s, <[l := d ∪ pfrule]> h))
                  end
                else (Return l, (s, <[l := pfrule]> h))
            | None => (Return l, (s, <[l := pfrule]> h))
            end
        end
    end.
Proof.
  intros Hl.
  assert (attrs h l = inst) as Ha by (unfold attrs; by rewrite Hl).
  unfold serialize_args_at, read, write, write_all. unfold_monad.
  cbn [fst snd]. rewrite Ha.
  destruct (getattr inst "host") as [host|e]; [|reflexivity].
  unfold or_.
  destruct (truthy (of_arg (Namespace.type args)));
    cbn [fst snd]; rewrite ?Ha;
    [|destruct (getattr inst "pf_type") as [t|e]; [|reflexivity]];
    cbn [fst snd]; rewrite ?Ha, !attrs_insert, !insert_insert_eq;
    (destruct (Namespace.binding args) as [b|]; [|reflexivity];
     destruct (negb (String.eqb b "")); [|reflexivity];
     cbn [fst snd]; rewrite attrs_insert;
     unfold getattr at 1; rewrite lookup_insert_ne by done;
     rewrite lookup_insert_eq;
     match goal with
     | |- context [parse_binding ?t b] =>
         destruct (parse_binding t b) as [d|e]; [|reflexivity]
     end;
     cbn [fst snd]; by rewrite insert_insert_eq, setattrs_union).
Qed.

(** X15.  Creating with a type flag, a host that the lookup finds and a
    binding that parses under that type returns a rule whose pf_type is the
    flag, whose host is what the lookup returned, whose four binding fields
    are the parsed ones, and whose other attributes are those of a fresh
    [PFRule]; the state is the one the lookup left. *)
Theorem create_builds_rule (args : Namespace.t) (s s1 : St)
    (t b : string) (h : value O) (d : gmap string (value O)) :
  Namespace.type args = Some t →
  Namespace.binding args = Some b →
  get_relation Host (Namespace.host args) s = (Return h, s1) →
  parse_binding (Str t) b = Return d →
  ∃ r, serialize_args get_relation PFRule_new args None s = (Return r, s1) ∧
       r !! "pf_type" = Some (Str t) ∧
       r !! "host" = Some h ∧
       (∀ k, k ∈ ["bound_address"; "local_port"; "hostname"; "remote_port"] →
             r !! k = d !! k ∧ is_Some (d !! k)) ∧
       (∀ k, k ∉ ["pf_type"; "host"; "bound_address"; "local_port";
                  "hostname"; "remote_port"] →
             r !! k = PFRule_new !! k).
Proof.
  intros Ht Hb Hh Hp.
  pose proof (parse_binding_known _ _ _ Hp) as (k & [= <-] & Hk & Hne).
  pose proof (parse_binding_returns _ _ _ Hp) as (ba & lp & hn & rp & ->).
  assert (t ≠ "") as Ht0.
  { intros ->. apply list_elem_of_In in Hk. simpl in Hk.
    destruct Hk as [Hk|[Hk|[Hk|[]]]]; discriminate Hk. }
  exists (fields ba lp hn rp ∪ <["host" := h]> (<["pf_type" := Str t]> PFRule_new)).
  split.
  { rewrite serialize_create, Hh, Ht, Hb. cbn [of_arg truthy].
    apply String.eqb_neq in Ht0, Hne. rewrite Ht0, Hne. cbn [negb].
    by rewrite Hp. }
  destruct (lookup_fields ba lp hn rp) as (Ha & Hl & Hn & Hr).
  split; [|split; [|split]].
  - rewrite lookup_union_r by (apply fields_no_other_key; notin_list).
    by simplify_map_eq.
  - rewrite lookup_union_r by (apply fields_no_other_key; notin_list).
    by simplify_map_eq.
  - intros k' Hk'. apply list_elem_of_In in Hk'. simpl in Hk'.
    destruct Hk' as [<-|[<-|[<-|[<-|[]]]]];
      (split; [|eauto]); erewrite lookup_union_Some_l; eauto.
  - intros k' Hk'.
    rewrite lookup_union_r by (apply fields_no_other_key; notin_list).
    assert (k' ≠ "host" ∧ k' ≠ "pf_type") as [? ?]
      by (split; intros ->; apply Hk'; in_list).
    by simplify_map_eq.
Qed.

(** X16.  An update with a binding writes all four binding fields: they
    are what the binding parses to under the type the rule ends up with (the
    type flag if given, else the type the instance had), which is then one
    of D, L, R; under D the host name and the remote port become the empty
    string, whatever the instance held before. *)
Theorem update_with_binding_sets_all_four (args : Namespace.t)
    (inst r : gmap string (value O)) (s s' : St) (b : string) :
  serialize_args get_relation PFRule_new args (Some inst) s = (Return r, s') →
  Namespace.binding args = Some b →
  b ≠ "" →
  ∃ t ba lp hn rp,
    r !! "pf_type" = Some (Str t) ∧
    t ∈ ["D"; "L"; "R"] ∧
    parse_binding (Str t) b = Return (fields ba lp hn rp) ∧
    r !! "bound_address" = Some ba ∧
    r !! "local_port" = Some lp ∧
    r !! "hostname" = Some hn ∧
    r !! "remote_port" = Some rp ∧
    (t = "D" → hn = Str "" ∧ rp = Str "").
Proof.
  intros Hrun Hb Hne. rewrite serialize_update, Hb in Hrun.
  apply String.eqb_neq in Hne. rewrite Hne in Hrun. cbn [negb] in Hrun.
  destruct (getattr inst "host") as [h|]; [|done].
  destruct (or_ _ _) as [tv|]; [|done]. cbn zeta in Hrun.
  destruct (parse_binding tv b) as [d|] eqn:Hp; [|done].
  injection Hrun as <- <-.
  pose proof (parse_binding_known _ _ _ Hp) as (t & -> & Ht & _).
  pose proof (parse_binding_returns _ _ _ Hp) as (ba & lp & hn & rp & ->).
  exists t, ba, lp, hn, rp.
  destruct (lookup_fields ba lp hn rp) as (Ha & Hl & Hn & Hr).
  split.
  { rewrite lookup_union_r by (apply fields_no_other_key; notin_list).
    by simplify_map_eq. }
  split; [done|]. split; [done|].
  repeat (split; [by erewrite lookup_union_Some_l|]).
  intros ->.
  apply (dynamic_returns (O:=O)) in Hp as (ba' & lp' & _ & Hd).
  apply fields_inj in Hd as (_ & _ & -> & ->). done.
Qed.

(** X17.  An update is idempotent: serialising the same arguments onto the
    rule that an update returned returns that rule again. *)
Theorem update_twice_is_update_once (args : Namespace.t)
    (inst r : gmap string (value O)) (s s' : St) :
  serialize_args get_relation PFRule_new args (Some inst) s = (Return r, s') →
  serialize_args get_relation PFRule_new args (Some r) s' = (Return r, s').
Proof.
  intros Hrun. rewrite serialize_update in Hrun. rewrite serialize_update.
  unfold getattr in *.
  destruct (inst !! "host") as [h|]; [|done].
  destruct (or_ (of_arg (Namespace.type args))
              (match inst !! "pf_type" with
               | Some v => Return v
               | None => Raise (AttributeError "pf_type")
               end)) as [t|] eqn:Ht; [|done].
  cbn zeta in Hrun.
  set (p := <["host" := h]> (<["pf_type" := t]> inst)) in *.
  assert (p !! "host" = Some h ∧ p !! "pf_type" = Some t) as [Hph Hpt]
    by (unfold p; by simplify_map_eq).
  assert (∀ q : gmap string (value O),
            q !! "host" = Some h → q !! "pf_type" = Some t →
            match q !! "host" with
            | Some v => Return v
            | None => Raise (AttributeError "host")
            end = Return h ∧
            or_ (of_arg (Namespace.type args))
              (match q !! "pf_type" with
               | Some v => Return v
               | None => Raise (AttributeError "pf_type")
               end) = Return t ∧
            <["host" := h]> (<["pf_type" := t]> q) = q) as Hsame.
  { intros q Hqh Hqt. rewrite Hqh, Hqt. split; [done|]. split.
    - unfold or_ in *. destruct (truthy (of_arg (Namespace.type args)));
        [done|]. done.
    - rewrite (insert_id q "pf_type" t Hqt). by apply insert_id. }
  destruct (Namespace.binding args) as [b|].
  - destruct (negb (String.eqb b "")).
    + destruct (parse_binding t b) as [d|] eqn:Hp; [|done].
      injection Hrun as <- <-.
      pose proof (parse_binding_returns _ _ _ Hp) as (ba & lp & hn & rp & ->).
      destruct (Hsame (fields ba lp hn rp ∪ p)) as (-> & -> & Hid).
      { rewrite lookup_union_r by (apply fields_no_other_key; notin_list).
        done. }
      { rewrite lookup_union_r by (apply fields_no_other_key; notin_list).
        done. }
      cbn zeta. rewrite Hp, Hid.
      by rewrite (assoc_L (∪)), (idemp_L (∪)).
    + injection Hrun as <- <-.
      destruct (Hsame p Hph Hpt) as (-> & -> & Hid). cbn zeta.
      by rewrite Hid.
  - injection Hrun as <- <-.
    destruct (Hsame p Hph Hpt) as (-> & -> & Hid). cbn zeta.
    by rewrite Hid.
Qed.

(** X18.  An update that raises does not touch the storage and raises one
    of four errors: [AttributeError] for an instance without a host, or
    without a pf_type when no type flag is given; [KeyError] for a type that
    is none of D, L, R; [InvalidBinding] for a binding that does not parse.
    It never raises [ArgumentRequiredException] or [DoesNotExistException].
    No other object is written.  The instance itself is as it was after an
    [AttributeError]; after a [KeyError] or an [InvalidBinding] its pf_type
    has already been overwritten with the type the binding was parsed for,
    and nothing else of it has changed: so with no type flag the instance is
    as it was, and with a type flag the caller's instance carries the new
    type although the update failed. *)
Theorem update_raises_only (args : Namespace.t) (l : positive)
    (inst : gmap string (value O))
    (h h' : gmap positive (gmap string (value O))) (s s' : St) (e : exn) :
  h !! l = Some inst →
  serialize_args_at get_relation PFRule_new args (Some l) (s, h)
    = (Raise e, (s', h')) →
  s' = s ∧
  update_error e ∧
  (inst !! "host" = None → e = AttributeError "host") ∧
  (∀ msg, e ≠ ArgumentRequiredException msg ∧ e ≠ DoesNotExistException msg) ∧
  (∀ l', l' ≠ l → h' !! l' = h !! l') ∧
  ((∃ name, e = AttributeError name) → h' = h) ∧
  ((∃ k, e = KeyError k) ∨ e = InvalidBinding "Invalid binding format." →
   ∃ t, or_ (of_arg (Namespace.type args)) (getattr inst "pf_type") = Return t ∧
        h' = <[l := <["pf_type" := t]> inst]> h) ∧
  (truthy (of_arg (O:=O) (Namespace.type args)) = false → h' = h) ∧
  (∀ t, Namespace.type args = Some t → t ≠ "" → is_Some (inst !! "host") →
        h' = <[l := <["pf_type" := Str t]> inst]> h).
Proof.
  intros Hl Hrun. rewrite (serialize_update_at _ _ _ _ _ Hl) in Hrun.
  assert (update_error e →
          ∀ msg, e ≠ ArgumentRequiredException msg ∧
                 e ≠ DoesNotExistException msg) as Hnot.
  { intros [-> | [-> | [[k ->] | ->]]] msg; done. }
  unfold getattr at 1 in Hrun.
  destruct (inst !! "host") as [host|] eqn:Hh.
  - destruct (or_ (of_arg (Namespace.type args)) (getattr inst "pf_type"))
      as [t|e0] eqn:Ht.
    + cbn zeta in Hrun.
      destruct (Namespace.binding args) as [b|]; [|done].
      destruct (negb (String.eqb b "")); [|done].
      destruct (parse_binding t b) as [d|e0] eqn:Hp; [done|].
      injection Hrun as <- <- <-.
      assert (<["host" := host]> (<["pf_type" := t]> inst)
              = <["pf_type" := t]> inst) as Hid.
      { apply insert_id. by rewrite lookup_insert_ne. }
      rewrite Hid.
      assert (update_error e0) as He.
      { apply parse_binding_raises in Hp as [Hk | ->];
          [right; right; by left | by repeat right]. }
      split; [done|]. split; [done|]. split; [done|].
      split; [by apply Hnot|].
      split; [intros l' Hne; by rewrite lookup_insert_ne|].
      split.
      { intros [name ->].
        apply parse_binding_raises in Hp as [[k Hk] | Hk]; done. }
      split; [intros _; by exists t|].
      split.
      * intros Hf. unfold or_ in Ht. rewrite Hf in Ht.
        unfold getattr in Ht.
        destruct (inst !! "pf_type") as [t0|] eqn:Hpt; [|done].
        injection Ht as <-. rewrite (insert_id inst) by done.
        by rewrite insert_id.
      * intros t1 Ht1 Hne _. unfold or_ in Ht. rewrite Ht1 in Ht.
        simpl in Ht. destruct (String.eqb t1 "") eqn:Heq.
        { by apply String.eqb_eq in Heq. }
        simpl in Ht. by injection Ht as <-.
    + injection Hrun as <- <- <-.
      unfold or_ in Ht.
      destruct (truthy (of_arg (Namespace.type args))) eqn:Htr; [done|].
      unfold getattr in Ht.
      destruct (inst !! "pf_type") as [t0|]; [done|]. injection Ht as <-.
      assert (update_error (AttributeError "pf_type")) as He
        by (right; by left).
      split; [done|]. split; [done|]. split; [done|].
      split; [by apply Hnot|]. split; [done|]. split; [done|].
      split; [intros [[k Hk] | Hk]; done|]. split; [done|].
      intros t1 Ht1 Hne _. rewrite Ht1 in Htr. simpl in Htr.
      destruct (String.eqb t1 "") eqn:Heq; [|done].
      by apply String.eqb_eq in Heq.
  - injection Hrun as <- <- <-.
    assert (update_error (AttributeError "host")) as He by (by left).
    split; [done|]. split; [done|]. split; [done|].
    split; [by apply Hnot|]. split; [done|]. split; [done|].
    split; [intros [[k Hk] | Hk]; done|]. split; [done|].
    intros t1 _ _ [? ?]; done.
Qed.


(** X20.  An update with no binding touches the type only: with a type
    flag the rule returned is the instance with pf_type set to the flag, its
    binding fields kept as they were even when they belong to another type;
    with no type flag either, the rule returned is the instance itself. *)
Theorem update_without_binding (args : Namespace.t)
    (inst : gmap string (value O)) (h : value O) (s : St) :
  inst !! "host" = Some h →
  Namespace.binding args = None →
  (∀ t, Namespace.type args = Some t → t ≠ "" →
        serialize_args get_relation PFRule_new args (Some inst) s =
        (Return (<["pf_type" := Str t]> inst), s)) ∧
  (∀ t0, Namespace.type args = None → inst !! "pf_type" = Some t0 →
         serialize_args get_relation PFRule_new args (Some inst) s =
         (Return inst, s)).
Proof.
  intros Hh Hb. split.
  - intros t Ht Hne. rewrite serialize_update. unfold getattr, or_.
    rewrite Hh, Ht, Hb. cbn [of_arg truthy].
    apply String.eqb_neq in Hne. rewrite Hne. cbn [negb]. cbn zeta.
    rewrite insert_id; [done|]. by rewrite lookup_insert_ne.
  - intros t0 Ht Ht0. rewrite serialize_update. unfold getattr, or_.
    rewrite Hh, Ht, Hb, Ht0. cbn [of_arg truthy]. cbn zeta.
    rewrite (insert_id inst "pf_type" t0 Ht0). by rewrite insert_id.
Qed.

(** X22.  On an existing instance the rule is written in place: whenever
    the update returns a rule, the reference returned is the instance's own
    and the instance then holds exactly that rule, while every other object
    and the storage are as they were; and it raises exactly when the update
    computed on the instance's attributes raises, with the same error. *)
Theorem update_in_place (args : Namespace.t) (l : positive)
    (inst : gmap string (value O))
    (h : gmap positive (gmap string (value O))) (s : St) :
  h !! l = Some inst →
  match serialize_args get_relation PFRule_new args (Some inst) s with
  | (Return r, s') =>
      serialize_args_at get_relation PFRule_new args (Some l) (s, h)
        = (Return l, (s', <[l := r]> h))
  | (Raise e, s') =>
      ∃ h', serialize_args_at get_relation PFRule_new args (Some l) (s, h)
              = (Raise e, (s', h'))
  end.
Proof.
  intros Hl. rewrite (serialize_update_at _ _ _ _ _ Hl), serialize_update.
  destruct (getattr inst "host") as [host|e]; [|by eexists].
  destruct (or_ _ _) as [t|e]; [|by eexists]. cbn zeta.
  destruct (Namespace.binding args) as [b|]; [|done].
  destruct (negb (String.eqb b "")); [|done].
  destruct (parse_binding t b) as [d|e]; [done|by eexists].
Qed.

(** X23.  Creating allocates a new object, which is no object of the heap
    before the call: a rule that is returned is held by the new object, and
    when creating raises the same error is raised with the objects that
    existed before left as they were. *)
Theorem create_allocates (args : Namespace.t)
    (h : gmap positive (gmap string (value O))) (s : St) :
  h !! fresh (dom h) = None ∧
  match serialize_args get_relation PFRule_new args None s with
  | (Return r, s') =>
      serialize_args_at get_relation PFRule_new args None (s, h)
        = (Return (fresh (dom h)), (s', <[fresh (dom h) := r]> h))
  | (Raise e, s') =>
      ∃ o, serialize_args_at get_relation PFRule_new args None (s, h)
             = (Raise e, (s', <[fresh (dom h) := o]> h))
  end.
Proof.
  split; [apply not_elem_of_dom, is_fresh|].
  rewrite serialize_create.
  unfold serialize_args_at, new, on_storage, read, write, write_all.
  unfold_monad. cbn [fst snd].
  destruct (get_relation Host (Namespace.host args) s) as [[host|e] s1];
    [|by eexists].
  destruct (truthy (of_arg (Namespace.type args))) eqn:Ht;
    cbn [negb fst snd]; [|by eexists].
  rewrite !attrs_insert, !insert_insert_eq.
  destruct (Namespace.binding args) as [b|]; [|done].
  destruct (negb (String.eqb b "")); [|done].
  cbn [fst snd]. rewrite attrs_insert.
  assert (getattr (<["host" := host]>
                     (<["pf_type" := of_arg (Namespace.type args)]> PFRule_new))
            "pf_type" = Return (of_arg (Namespace.type args))) as ->.
  { unfold getattr. rewrite lookup_insert_ne by done.
    by rewrite lookup_insert_eq. }
  destruct (parse_binding _ b) as [d|e]; [|by eexists].
  cbn [fst snd]. by rewrite insert_insert_eq, setattrs_union.
Qed.

End pfrule.

Lemma update_without_binding_witness :
  let web1 : value Store.entity := Obj (Store.Entity 7 "web1") in
  let inst : gmap string (value Store.entity) :=
    <["host" := web1]>
      (<["pf_type" := Str "L"]>
         (fields None_ (Str "8080") (Str "example.com") (Str "80"))) in
  let args := Namespace.Make false ["1"] None (Some "D") None in
  inst !! "host" = Some web1 ∧
  serialize_args Store.get ∅ args (Some inst) Store.two_hosts =
    (Return (<["pf_type" := Str "D"]> inst), Store.two_hosts) ∧
  (<["pf_type" := Str "D"]> inst) !! "hostname" = Some (Str "example.com").
Proof.
  intros web1 inst args.
  assert (inst !! "host" = Some web1) as Hh by (vm_compute; reflexivity).
  assert ("D" ≠ "") as Hne by discriminate.
  split; [exact Hh|]. split; [|vm_compute; reflexivity].
  exact (proj1 (update_without_binding Store.get ∅ args inst web1
                  Store.two_hosts Hh eq_refl) "D" eq_refl Hne).
Defined.

Lemma create_builds_rule_witness :
  let args :=
    Namespace.Make false [] (Some "web1") (Some "L")
                   (Some "8080:example.com:80") in
  let web1 : value Store.entity := Obj (Store.Entity 7 "web1") in
  let d : gmap string (value Store.entity) :=
    fields None_ (Str "8080") (Str "example.com") (Str "80") in
  Store.get Host (Namespace.host args) Store.two_hosts
    = (Return web1, Store.two_hosts) ∧
  parse_binding (Str "L") "8080:example.com:80" = Return d ∧
  ∃ r, serialize_args Store.get ∅ args None Store.two_hosts
       = (Return r, Store.two_hosts) ∧
       r !! "pf_type" = Some (Str "L") ∧
       r !! "host" = Some web1 ∧
       (∀ k, k ∈ ["bound_address"; "local_port"; "hostname"; "remote_port"] →
             r !! k = d !! k ∧ is_Some (d !! k)) ∧
       (∀ k, k ∉ ["pf_type"; "host"; "bound_address"; "local_port";
                  "hostname"; "remote_port"] →
             r !! k = (∅ : gmap string (value Store.entity)) !! k).
Proof.
  intros args web1 d.
  assert (Store.get Host (Namespace.host args) Store.two_hosts
          = (Return web1, Store.two_hosts)) as Hh by (vm_compute; reflexivity).
  assert (parse_binding (Str "L") "8080:example.com:80" = Return d) as Hp
    by (vm_compute; reflexivity).
  split; [exact Hh|]. split; [exact Hp|].
  exact (create_builds_rule Store.get ∅ args Store.two_hosts Store.two_hosts
           "L" "8080:example.com:80" web1 d eq_refl eq_refl Hh Hp).
Defined.

Lemma update_with_binding_sets_all_four_witness :
  let web1 : value Store.entity := Obj (Store.Entity 7 "web1") in
  let inst : gmap string (value Store.entity) :=
    <["host" := web1]>
      (<["pf_type" := Str "L"]>
         (fields None_ (Str "8080") (Str "example.com") (Str "80"))) in
  let args := Namespace.Make false ["1"] None (Some "D") (Some "1080") in
  let r : gmap string (value Store.entity) :=
    <["host" := web1]>
      (<["pf_type" := Str "D"]>
         (fields None_ (Str "1080") (Str "") (Str ""))) in
  serialize_args Store.get ∅ args (Some inst) Store.two_hosts
    = (Return r, Store.two_hosts) ∧
  ∃ t ba lp hn rp,
    r !! "pf_type" = Some (Str t) ∧
    t ∈ ["D"; "L"; "R"] ∧
    parse_binding (Str t) "1080" = Return (fields ba lp hn rp) ∧
    r !! "bound_address" = Some ba ∧
    r !! "local_port" = Some lp ∧
    r !! "hostname" = Some hn ∧
    r !! "remote_port" = Some rp ∧
    (t = "D" → hn = Str "" ∧ rp = Str "").
Proof.
  intros web1 inst args r.
  assert (serialize_args Store.get ∅ args (Some inst) Store.two_hosts
          = (Return r, Store.two_hosts)) as H by (vm_compute; reflexivity).
  split; [exact H|].
  assert ("1080" ≠ "") as Hne by discriminate.
  exact (update_with_binding_sets_all_four Store.get ∅ args inst r
           Store.two_hosts Store.two_hosts "1080" H eq_refl Hne).
Defined.

Lemma update_twice_is_update_once_witness :
  let web1 : value Store.entity := Obj (Store.Entity 7 "web1") in
  let inst : gmap string (value Store.entity) :=
    <["host" := web1]>
      (<["pf_type" := Str "L"]>
         (fields None_ (Str "8080") (Str "example.com") (Str "80"))) in
  let args := Namespace.Make false ["1"] None (Some "D") (Some "1080") in
  let r : gmap string (value Store.entity) :=
    <["host" := web1]>
      (<["pf_type" := Str "D"]>
         (fields None_ (Str "1080") (Str "") (Str ""))) in
  serialize_args Store.get ∅ args (Some inst) Store.two_hosts
    = (Return r, Store.two_hosts) ∧
  serialize_args Store.get ∅ args (Some r) Store.two_hosts
    = (Return r, Store.two_hosts).
Proof.
  intros web1 inst args r.
  assert (serialize_args Store.get ∅ args (Some inst) Store.two_hosts
          = (Return r, Store.two_hosts)) as H by (vm_compute; reflexivity).
  split; [exact H|].
  exact (update_twice_is_update_once Store.get ∅ args inst r
           Store.two_hosts Store.two_hosts H).
Defined.

Lemma update_raises_only_witness :
  let inst : gmap string (value Store.entity) :=
    <["host" := Obj (Store.Entity 7 "web1")]> (<["pf_type" := Str "L"]> ∅) in
  let h : gmap positive (gmap string (value Store.entity)) := {[ 1%positive := inst ]} in
  let h' : gmap positive (gmap string (value Store.entity)) :=
    {[ 1%positive := <["pf_type" := Str "D"]> inst ]} in
  let args :=
    Namespace.Make false ["1"] None (Some "D") (Some "8080:example.com:80") in
  let e := InvalidBinding "Invalid binding format." in
  h !! 1%positive = Some inst ∧
  serialize_args_at Store.get ∅ args (Some 1%positive) (Store.two_hosts, h)
    = (Raise e, (Store.two_hosts, h')) ∧
  h' ≠ h ∧
  h' = <[1%positive := <["pf_type" := Str "D"]> inst]> h.
Proof.
  intros inst h h' args e.
  assert (h !! 1%positive = Some inst) as Hl by reflexivity.
  assert (serialize_args_at Store.get ∅ args (Some 1%positive)
            (Store.two_hosts, h)
          = (Raise e, (Store.two_hosts, h'))) as H
    by (vm_compute; reflexivity).
  split; [exact Hl|]. split; [exact H|]. split.
  - intros Heq.
    assert (h' !! 1%positive = h !! 1%positive) as Hat by (by rewrite Heq).
    vm_compute in Hat. discriminate Hat.
  - destruct (update_raises_only Store.get ∅ args 1%positive inst h h'
                Store.two_hosts Store.two_hosts e Hl H)
      as (_ & _ & _ & _ & _ & _ & _ & _ & Hty).
    apply (Hty "D"); [reflexivity|discriminate|].
    by exists (Obj (Store.Entity 7 "web1")).
Defined.

Lemma update_in_place_witness :
  let inst : gmap string (value Store.entity) :=
    <["host" := Obj (Store.Entity 7 "web1")]> (<["pf_type" := Str "L"]> ∅) in
  let h : gmap positive (gmap string (value Store.entity)) :=
    {[ 1%positive := inst ]} in
  let args := Namespace.Make false ["1"] None (Some "D") (Some "1080") in
  h !! 1%positive = Some inst ∧
  ∃ r,
    serialize_args Store.get ∅ args (Some inst) Store.two_hosts
      = (Return r, Store.two_hosts) ∧
    r !! "pf_type" = Some (Str "D") ∧
    r !! "local_port" = Some (Str "1080") ∧
    serialize_args_at Store.get ∅ args (Some 1%positive) (Store.two_hosts, h)
      = (Return 1%positive, (Store.two_hosts, <[1%positive := r]> h)).
Proof.
  intros inst h args.
  assert (h !! 1%positive = Some inst) as Hl by reflexivity.
  split; [exact Hl|].
  pose proof (update_in_place Store.get ∅ args 1%positive inst h
                Store.two_hosts Hl) as Hu.
  destruct (serialize_args Store.get ∅ args (Some inst) Store.two_hosts)
    as [[r|e0] s'] eqn:Hs; vm_compute in Hs; [|discriminate Hs].
  injection Hs as <- <-.
  eexists. split; [reflexivity|]. split; [reflexivity|].
  split; [reflexivity|]. exact Hu.
Defined.


End PFRuleExtras.

